(** * The waitlist store of the referral sign-up page

    A shallow embedding of the store functions of [src/App.tsx]
    ([generateReferralCode], [getWaitlist], [saveWaitlist],
    [findUserByEmail], [findUserByCode], [addUser], [getReferralCount],
    [getUserRank]) and of their copy in the second page variant, together
    with the properties the specification states about them.

    JavaScript strings are sequences of UTF-16 code units, objects live in
    a heap and are handled by reference, and [localStorage] is a cell of
    text read back through [JSON.parse]. *)

From Stdlib Require Import String Ascii NArith ZArith Lia.
From stdpp Require Import base option numbers list sorting.

Local Open Scope N_scope.

(** ** Strings *)

(** A JavaScript string: its UTF-16 code units. *)
Definition jsstring := list N.

(** A string literal of 8-bit characters as a JavaScript string. *)
Definition js (s : string) : jsstring :=
  map N_of_ascii (list_ascii_of_string s).

(** [a === b] on strings. *)
Definition str_eqb (a b : jsstring) : bool := bool_decide (a = b).

(** [String.prototype.toLowerCase] is a primitive of the platform: it
    follows the Unicode case tables, which this development does not
    reproduce.  The store is therefore stated over any case mapping. *)
Class CaseMapping := { toLowerCase : jsstring -> jsstring }.

(** The case mapping on the Basic Latin and Latin-1 Supplement blocks
    (code units below 256), where it is a map on single code units:
    the letters at 65-90 and at 192-222 except the sign at 215 move up by
    32.  Code units from 256 on are left alone here. *)
Definition lowerUnit (c : N) : N :=
  if (65 <=? c) && (c <=? 90) then c + 32
  else if (192 <=? c) && (c <=? 222) && negb (c =? 215) then c + 32
  else c.

Definition latin1_case : CaseMapping := {| toLowerCase := map lowerUnit |}.

(** ** [btoa] *)

(** The character of a 6-bit group in the base-64 alphabet. *)
Definition b64char (i : N) : N :=
  if i <? 26 then 65 + i
  else if i <? 52 then 97 + (i - 26)
  else if i <? 62 then 48 + (i - 52)
  else if i =? 62 then 43
  else 47.

(** The padding character [=]. *)
Definition pad : N := 61.

Fixpoint base64 (bytes : list N) : list N :=
  match bytes with
  | [] => []
  | [a] => [b64char (a / 4); b64char (a mod 4 * 16); pad; pad]
  | [a; b] =>
      [b64char (a / 4); b64char (a mod 4 * 16 + b / 16);
       b64char (b mod 16 * 4); pad]
  | a :: b :: c :: rest =>
      b64char (a / 4) :: b64char (a mod 4 * 16 + b / 16)
      :: b64char (b mod 16 * 4 + c / 64) :: b64char (c mod 64)
      :: base64 rest
  end.

Inductive exn := InvalidCharacterError.

(** The completion of a call that has no effect on the world. *)
Inductive completion (A : Type) :=
| Normal (a : A)
| Abrupt (e : exn).
Arguments Normal {A} a.
Arguments Abrupt {A} e.

(** [btoa(s)]: every code unit must be below 256, otherwise the call
    throws [InvalidCharacterError]. *)
Definition btoa (s : jsstring) : completion jsstring :=
  if forallb (fun c => c <=? 255) s then Normal (base64 s)
  else Abrupt InvalidCharacterError.

(** [s.replace(/=+$/, "")]: the run of [=] at the end of [s] is removed. *)
Fixpoint stripPadding (s : jsstring) : jsstring :=
  match s with
  | [] => []
  | c :: t =>
      match stripPadding t with
      | [] => if c =? pad then [] else [c]
      | t' => c :: t'
      end
  end.

(** The reverse direction, used to show that the code gives the email
    back: the value of a base-64 character, and the decoding of an
    unpadded code. *)
Definition b64index (c : N) : option N :=
  if (65 <=? c) && (c <=? 90) then Some (c - 65)
  else if (97 <=? c) && (c <=? 122) then Some (c - 97 + 26)
  else if (48 <=? c) && (c <=? 57) then Some (c - 48 + 52)
  else if c =? 43 then Some 62
  else if c =? 47 then Some 63
  else None.

Fixpoint decodeReferralCode (code : jsstring) : option jsstring :=
  match code with
  | [] => Some []
  | [c1; c2] =>
      s1 ← b64index c1; s2 ← b64index c2;
      Some [s1 * 4 + s2 / 16]
  | [c1; c2; c3] =>
      s1 ← b64index c1; s2 ← b64index c2; s3 ← b64index c3;
      Some [s1 * 4 + s2 / 16; s2 mod 16 * 16 + s3 / 4]
  | c1 :: c2 :: c3 :: c4 :: rest =>
      s1 ← b64index c1; s2 ← b64index c2; s3 ← b64index c3;
      s4 ← b64index c4; r ← decodeReferralCode rest;
      Some (s1 * 4 + s2 / 16 :: s2 mod 16 * 16 + s3 / 4
            :: s3 mod 4 * 64 + s4 :: r)
  | _ => None
  end.

(** ** Records, JSON values and the storage cell *)

Record WaitlistUser := {
  email : jsstring;
  referralCode : jsstring;
  referredBy : option jsstring;
  referrals : list jsstring
}.

(** What [JSON.parse] returns. *)
#[warning="-register-all"]
Inductive json :=
| JNull
| JBool (b : bool)
| JNumber (z : Z)
| JString (s : jsstring)
| JArray (items : list json)
| JObject (fields : list (jsstring * json)).

(** The tree [JSON.stringify] writes for a user: the own properties in
    creation order, [referredBy] left out when it is [undefined]. *)
Definition user_to_json (u : WaitlistUser) : json :=
  JObject ([(js "email", JString (email u));
            (js "referralCode", JString (referralCode u))]
           ++ match referredBy u with
              | Some r => [(js "referredBy", JString r)]
              | None => []
              end
           ++ [(js "referrals", JArray (map JString (referrals u)))]).

Definition waitlist_to_json (l : list WaitlistUser) : json :=
  JArray (map user_to_json l).

(** The reading of a parsed value at its declared type [WaitlistUser[]]:
    defined on the trees above, [None] on every other value. *)
Definition json_to_string (v : json) : option jsstring :=
  match v with JString s => Some s | _ => None end.

Definition has_keys (ks : list string) (fs : list (jsstring * json)) : bool :=
  bool_decide (map fst fs = map js ks).

Definition json_to_user (v : json) : option WaitlistUser :=
  match v with
  | JObject ([(_, JString e); (_, JString c); (_, JArray rs)] as fs) =>
      if has_keys ["email"; "referralCode"; "referrals"]%string fs
      then rs' ← mapM json_to_string rs;
           Some {| email := e; referralCode := c; referredBy := None;
                   referrals := rs' |}
      else None
  | JObject ([(_, JString e); (_, JString c); (_, JString r); (_, JArray rs)]
             as fs) =>
      if has_keys ["email"; "referralCode"; "referredBy"; "referrals"]%string fs
      then rs' ← mapM json_to_string rs;
           Some {| email := e; referralCode := c; referredBy := Some r;
                   referrals := rs' |}
      else None
  | _ => None
  end.

Definition json_to_waitlist (v : json) : option (list WaitlistUser) :=
  match v with
  | JArray items => mapM json_to_user items
  | _ => None
  end.

(** The text under the key ["waitlist_users"], told by what [JSON.parse]
    does on it: it throws ([Unparseable]: truncated text, the empty
    string, ...) or returns a value.  [saveWaitlist] writes
    [JSON.stringify(users)], which parses back to the tree of [users]. *)
Inductive blob :=
| Unparseable
| Parseable (v : json).

(** ** Heap, world and the monad of calls *)

(** Objects are handled by reference: a reference is an index in the heap. *)
Abbreviation ref := nat.

Record world := {
  store : option blob;          (* localStorage["waitlist_users"] *)
  heap : list WaitlistUser      (* the user objects allocated so far *)
}.

(** A call returns or throws, in both cases leaving a world, or leaves the
    part of JavaScript that is modelled: it goes on with a value that does
    not have its declared TypeScript type. *)
Inductive outcome (A : Type) :=
| Returns (a : A) (w : world)
| Throws (e : exn) (w : world)
| Unmodelled.
Arguments Returns {A} a w.
Arguments Throws {A} e w.
Arguments Unmodelled {A}.

Definition M (A : Type) : Type := world -> outcome A.

#[global] Instance M_ret : MRet M := fun A a w => Returns a w.
#[global] Instance M_bind : MBind M := fun A B f m w =>
  match m w with
  | Returns a w' => f a w'
  | Throws e w' => Throws e w'
  | Unmodelled => Unmodelled
  end.

(** A call without effect on the world, made from a function of the store. *)
Definition call {A} (c : completion A) : M A :=
  fun w => match c with
           | Normal a => Returns a w
           | Abrupt e => Throws e w
           end.
Definition unmodelled {A} : M A := fun _ => Unmodelled.

(** [localStorage.getItem] and [setItem] on the key ["waitlist_users"];
    the storage quota is not modelled. *)
Definition getItem : M (option blob) := fun w => Returns (store w) w.
Definition setItem (b : blob) : M unit :=
  fun w => Returns tt {| store := Some b; heap := heap w |}.

(** A new object. *)
Definition alloc (u : WaitlistUser) : M ref :=
  fun w => Returns (length (heap w))
                   {| store := store w; heap := heap w ++ [u] |}.

(** Reading the fields of an object. *)
Definition deref (r : ref) : M WaitlistUser :=
  fun w => match heap w !! r with
           | Some u => Returns u w
           | None => Unmodelled
           end.

(** [obj.referrals.push(e)] on the object at [r]. *)
Definition push_referral (r : ref) (e : jsstring) : M unit :=
  fun w => match heap w !! r with
           | Some u =>
               Returns tt
                 {| store := store w;
                    heap := <[r := {| email := email u;
                                     referralCode := referralCode u;
                                     referredBy := referredBy u;
                                     referrals := referrals u ++ [e] |}]>
                              (heap w) |}
           | None => Unmodelled
           end.

Fixpoint allocAll (l : list WaitlistUser) : M (list ref) :=
  match l with
  | [] => mret []
  | u :: t => r ← alloc u; rs ← allocAll t; mret (r :: rs)
  end.

Fixpoint derefAll (rs : list ref) : M (list WaitlistUser) :=
  match rs with
  | [] => mret []
  | r :: t => u ← deref r; us ← derefAll t; mret (u :: us)
  end.

(** What a function typed [WaitlistUser[]] may hold at run time: an array
    of user objects, or any other parsed value. *)
Inductive value :=
| VUsers (refs : list ref)
| VOther (v : json).

(** Use of a value at type [WaitlistUser[]]. *)
Definition asUsers (v : value) : M (list ref) :=
  match v with
  | VUsers refs => mret refs
  | VOther _ => unmodelled
  end.

(** [arr.find(p)] for a predicate that reads the object. *)
Fixpoint findObj (p : WaitlistUser -> bool) (refs : list ref) : M (option ref) :=
  match refs with
  | [] => mret None
  | r :: t => u ← deref r; if p u then mret (Some r) else findObj p t
  end.

(** The index of the first element that satisfies [p]. *)
Fixpoint find_index {A} (p : A -> bool) (l : list A) : option nat :=
  match l with
  | [] => None
  | x :: t => if p x then Some O else S <$> find_index p t
  end.

(** [arr.findIndex(p)]: [-1] when no element satisfies [p]. *)
Definition findIndex {A} (p : A -> bool) (l : list A) : Z :=
  match find_index p l with
  | Some i => Z.of_nat i
  | None => -1
  end.

(** [arr.sort(cmp)]: the sort is stable (ECMAScript 2019) and puts [a]
    before [b] when [cmp a b < 0]; with a comparator that is consistent the
    result does not depend on the algorithm, here insertion from the
    right. *)
Fixpoint sort_insert {A} (cmp : A -> A -> Z) (x : A) (l : list A) : list A :=
  match l with
  | [] => [x]
  | y :: t => if (cmp x y <=? 0)%Z then x :: y :: t
              else y :: sort_insert cmp x t
  end.

Definition sort {A} (cmp : A -> A -> Z) (l : list A) : list A :=
  foldr (sort_insert cmp) [] l.

(** ** The check of the form

    [validateEmail] tests the pattern [^[^\s@]+@[^\s@]+\.[^\s@]+$]: the
    text before the only [@] is not empty, no character is white space, and
    the text after the [@] has a dot that is neither its first nor its last
    character. *)

(** The class [\s] of a JavaScript pattern. *)
Definition is_space (c : N) : bool :=
  ((9 <=? c) && (c <=? 13)) || (c =? 32) || (c =? 160) || (c =? 5760)
  || ((8192 <=? c) && (c <=? 8202)) || (c =? 8232) || (c =? 8233)
  || (c =? 8239) || (c =? 8287) || (c =? 12288) || (c =? 65279).

(** The class [[^\s@]]. *)
Definition plain (c : N) : bool := negb (is_space c) && negb (c =? 64).

(** The text before and after the first [@]. *)
Fixpoint split_at (s : jsstring) : option (jsstring * jsstring) :=
  match s with
  | [] => None
  | c :: t =>
      if c =? 64 then Some ([], t)
      else '(a, b) ← split_at t; Some (c :: a, b)
  end.

Definition validateEmail (s : jsstring) : bool :=
  match split_at s with
  | Some (a, b) =>
      match a with [] => false | _ :: _ => true end
      && forallb plain a && forallb plain b
      && existsb (fun c => c =? 46) (removelast (tail b))
  | None => false
  end.

(** The result of [addUser]: [{ user, error? }]. *)
Record AddResult := { user : ref; error : option jsstring }.

Definition already_on_waitlist : jsstring :=
  js "This email is already on the waitlist.".

(** ** The store functions of [src/App.tsx] *)

Module App.
Section Store.
Context `{CaseMapping}.

Definition generateReferralCode (email : jsstring) : completion jsstring :=
  match btoa email with
  | Normal s => Normal (stripPadding s)
  | Abrupt e => Abrupt e
  end.

(** [try { data = getItem(..); return data ? JSON.parse(data) : [] }
    catch { return [] }].  [JSON.parse] builds new objects. *)
Definition getWaitlist : M value :=
  data ← getItem;
  match data with
  | None => mret (VUsers [])
  | Some Unparseable => mret (VUsers [])
  | Some (Parseable v) =>
      match json_to_waitlist v with
      | Some l => refs ← allocAll l; mret (VUsers refs)
      | None => mret (VOther v)
      end
  end.

Definition saveWaitlist (users : list ref) : M unit :=
  objs ← derefAll users;
  setItem (Parseable (waitlist_to_json objs)).

Definition findUserByEmail (email' : jsstring) : M (option ref) :=
  waitlist ← getWaitlist ≫= asUsers;
  findObj (fun u => str_eqb (toLowerCase (email u)) (toLowerCase email'))
          waitlist.

Definition findUserByCode (code : jsstring) : M (option ref) :=
  waitlist ← getWaitlist ≫= asUsers;
  findObj (fun u => str_eqb (referralCode u) code) waitlist.

Definition addUser (email' : jsstring) (referredByCode : option jsstring)
  : M AddResult :=
  waitlist ← getWaitlist ≫= asUsers;
  found ← findUserByEmail email';
  match found with
  | Some _ =>
      again ← findUserByEmail email';
      match again with
      | Some r => mret {| user := r; error := Some already_on_waitlist |}
      | None => unmodelled
      end
  | None =>
      referralCode' ← call (generateReferralCode email');
      user' ← alloc {| email := email'; referralCode := referralCode';
                       referredBy := referredByCode; referrals := [] |};
      let waitlist := waitlist ++ [user'] in
      match referredByCode with
      | Some ((_ :: _) as code) =>
          referrer ← findUserByCode code;
          match referrer with
          | Some r =>
              obj ← deref r;
              if negb (existsb (str_eqb email') (referrals obj))
              then push_referral r email'
              else mret tt
          | None => mret tt
          end
      | _ => mret tt    (* [undefined] and [""] are falsy *)
      end;;
      saveWaitlist waitlist;;
      mret {| user := user'; error := None |}
  end.

Definition getReferralCount (user' : WaitlistUser) : nat :=
  length (referrals user').

(** The comparator and the predicate only read the objects, so the sort
    runs on their fields as read from the heap. *)
Definition getUserRank (user' : WaitlistUser) : M Z :=
  waitlist ← getWaitlist ≫= asUsers;
  objs ← derefAll waitlist;
  let sorted :=
    sort (fun a b => Z.of_nat (getReferralCount b)
                     - Z.of_nat (getReferralCount a))%Z objs in
  mret (findIndex (fun u => str_eqb (email u) (email user')) sorted + 1)%Z.
End Store.
End App.

(** ** The store functions of the second page variant

    [src/unnamed/part_000] differs from [src/App.tsx] in the markup of the
    page only; its store functions are embedded from its own text. *)

Module Variant.
Section Store.
Context `{CaseMapping}.

Definition generateReferralCode (email : jsstring) : completion jsstring :=
  match btoa email with
  | Normal s => Normal (stripPadding s)
  | Abrupt e => Abrupt e
  end.

(** [try { data = getItem(..); return data ? JSON.parse(data) : [] }
    catch { return [] }].  [JSON.parse] builds new objects. *)
Definition getWaitlist : M value :=
  data ← getItem;
  match data with
  | None => mret (VUsers [])
  | Some Unparseable => mret (VUsers [])
  | Some (Parseable v) =>
      match json_to_waitlist v with
      | Some l => refs ← allocAll l; mret (VUsers refs)
      | None => mret (VOther v)
      end
  end.

Definition saveWaitlist (users : list ref) : M unit :=
  objs ← derefAll users;
  setItem (Parseable (waitlist_to_json objs)).

Definition findUserByEmail (email' : jsstring) : M (option ref) :=
  waitlist ← getWaitlist ≫= asUsers;
  findObj (fun u => str_eqb (toLowerCase (email u)) (toLowerCase email'))
          waitlist.

Definition findUserByCode (code : jsstring) : M (option ref) :=
  waitlist ← getWaitlist ≫= asUsers;
  findObj (fun u => str_eqb (referralCode u) code) waitlist.

Definition addUser (email' : jsstring) (referredByCode : option jsstring)
  : M AddResult :=
  waitlist ← getWaitlist ≫= asUsers;
  found ← findUserByEmail email';
  match found with
  | Some _ =>
      again ← findUserByEmail email';
      match again with
      | Some r => mret {| user := r; error := Some already_on_waitlist |}
      | None => unmodelled
      end
  | None =>
      referralCode' ← call (generateReferralCode email');
      user' ← alloc {| email := email'; referralCode := referralCode';
                       referredBy := referredByCode; referrals := [] |};
      let waitlist := waitlist ++ [user'] in
      match referredByCode with
      | Some ((_ :: _) as code) =>
          referrer ← findUserByCode code;
          match referrer with
          | Some r =>
              obj ← deref r;
              if negb (existsb (str_eqb email') (referrals obj))
              then push_referral r email'
              else mret tt
          | None => mret tt
          end
      | _ => mret tt    (* [undefined] and [""] are falsy *)
      end;;
      saveWaitlist waitlist;;
      mret {| user := user'; error := None |}
  end.

Definition getReferralCount (user' : WaitlistUser) : nat :=
  length (referrals user').

(** The comparator and the predicate only read the objects, so the sort
    runs on their fields as read from the heap. *)
Definition getUserRank (user' : WaitlistUser) : M Z :=
  waitlist ← getWaitlist ≫= asUsers;
  objs ← derefAll waitlist;
  let sorted :=
    sort (fun a b => Z.of_nat (getReferralCount b)
                     - Z.of_nat (getReferralCount a))%Z objs in
  mret (findIndex (fun u => str_eqb (email u) (email user')) sorted + 1)%Z.
End Store.
End Variant.

(** ** Notions of the specification *)

Import App.

(** The waitlist a storage cell holds for the store: a missing or
    unparseable text counts as the empty waitlist, a parsed value counts
    when it is an array of user records. *)
Definition persisted (s : option blob) : option (list WaitlistUser) :=
  match s with
  | None => Some []
  | Some Unparseable => Some []
  | Some (Parseable v) => json_to_waitlist v
  end.

(** Two emails are the same for the uniqueness check. *)
Definition same_email `{CaseMapping} (a b : jsstring) : Prop :=
  toLowerCase a = toLowerCase b.

(** Exactly one user record per distinct lowercase email. *)
Definition unique_emails `{CaseMapping} (l : list WaitlistUser) : Prop :=
  NoDup (map (fun u => toLowerCase (email u)) l).

(** The storage cells the page can bring about: it starts with no item
    and changes the item through [addUser] only. *)
Inductive reachable `{CaseMapping} : option blob -> Prop :=
| reach_start : reachable None
| reach_addUser (s : option blob) (h : list WaitlistUser) (e : jsstring)
    (c : option jsstring) (res : AddResult) (w' : world) :
    reachable s ->
    addUser e c {| store := s; heap := h |} = Returns res w' ->
    reachable (store w').

(** Every code unit is below 256: the emails [btoa] accepts. *)
Definition latin1 (s : jsstring) : Prop := Forall (fun c => c <= 255) s.

(** The comparator of [getUserRank]. *)
Definition byReferrals (a b : WaitlistUser) : Z :=
  Z.of_nat (getReferralCount b) - Z.of_nat (getReferralCount a).

(** Earlier in rank order means at least as many referrals. *)
Definition ranks_before (a b : WaitlistUser) : Prop :=
  (getReferralCount b <= getReferralCount a)%nat.

(** The position the specification gives the user at index [i]: one more
    than the number of users with more referrals plus the number of users
    with as many referrals that signed up earlier. *)
Definition rank_position (l : list WaitlistUser) (i : nat) (u : WaitlistUser)
  : nat :=
  S (length (filter (fun v => getReferralCount u < getReferralCount v)%nat l)
     + length (filter (fun v => getReferralCount v = getReferralCount u)
                      (take i l))).

(** The predicates of [findUserByEmail] and [findUserByCode]. *)
Definition has_email `{CaseMapping} (e : jsstring) (u : WaitlistUser) : bool :=
  str_eqb (toLowerCase (email u)) (toLowerCase e).

Definition has_code (c : jsstring) (u : WaitlistUser) : bool :=
  str_eqb (referralCode u) c.

(** The record [addUser] creates for an email [btoa] accepts. *)
Definition new_user (e : jsstring) (c : option jsstring) : WaitlistUser :=
  {| email := e; referralCode := stripPadding (base64 e);
     referredBy := c; referrals := [] |}.

(** A world whose storage cell holds the waitlist [l], as written by
    [saveWaitlist], and whose heap is empty. *)
Definition stored (l : list WaitlistUser) : world :=
  {| store := Some (Parseable (waitlist_to_json l)); heap := [] |}.

(** Sample data: two 8-bit emails, and an email with the code unit 322
    (the letter l with stroke), which the form's email pattern accepts. *)
Definition alice : WaitlistUser := new_user (js "alice@x.com") None.
Definition bob_email : jsstring := js "bob@x.com".
Definition lukasz_email : jsstring := 322 :: js "ukasz@x.com".
Definition bob : WaitlistUser :=
  new_user bob_email (Some (referralCode alice)).

(** The world after bob registered with alice's code on the waitlist of
    alice alone, from an empty heap: the last object is the copy of alice
    that [findUserByCode] found. *)
Definition after_bob : world :=
  {| store := Some (Parseable (waitlist_to_json [alice; bob]));
     heap := [alice; alice; bob;
              {| email := email alice; referralCode := referralCode alice;
                 referredBy := None; referrals := [bob_email] |}] |}.

(** A waitlist of three with different referral counts, as the storage
    cell may hold it. *)
Definition carol : WaitlistUser :=
  {| email := js "carol@x.com"; referralCode := js "Y2Fyb2xAeC5jb20";
     referredBy := None; referrals := [js "dan@x.com"; js "eve@x.com"] |}.
Definition three_users : list WaitlistUser := [alice; carol; bob].

(** The objects a list of references stands for. *)
Definition points_to (h : list WaitlistUser) (rs : list ref)
  (us : list WaitlistUser) : Prop :=
  Forall2 (fun r u => h !! r = Some u) rs us.

(** ** The page component

    The state and the handlers of the component [App] of [src/App.tsx]
    that reach the store: the effect run on mount, [handleSubmit] with its
    timeout callback, [handleReset], and the values [rank] and [total]
    computed on each render.  The states [copySuccess] and [referralCount]
    are written by [handleCopy] and by the counting effect only (clipboard
    and timers) and are left out; calls on the DOM ([preventDefault],
    [focus]) have no effect on the state. *)

Inductive Step := form | dashboard.

Record PageState := {
  st_step : Step;                        (* step *)
  st_email : jsstring;                   (* email *)
  st_inputError : jsstring;              (* inputError *)
  st_user : option ref;                  (* user: an object or null *)
  st_loading : bool;                     (* loading *)
  st_justJoined : bool;                  (* justJoined *)
  st_referralParam : option jsstring     (* referralParam *)
}.

(** The values the [useState] calls start with. *)
Definition initialState : PageState :=
  {| st_step := form; st_email := []; st_inputError := []; st_user := None;
     st_loading := false; st_justJoined := false; st_referralParam := None |}.

(** The browser: the world of the store and the item
    ["waitlist_last_email"] of [localStorage]. *)
Record browser := {
  br_world : world;
  br_lastEmail : option jsstring
}.

(** What running a handler leaves: the state to render and the browser,
    or an exception nobody catches, with the state and browser reached;
    [Beyond] when the run leaves what is modelled (a percent escape in the
    query, a stored value that is not a waitlist). *)
Inductive reaction :=
| Rendered (p : PageState) (b : browser)
| Uncaught (e : exn) (p : PageState) (b : browser)
| Beyond.

(** The text [s] cut at each [sep]. *)
Fixpoint split_on (sep : N) (s : jsstring) : list jsstring :=
  match s with
  | [] => [[]]
  | c :: t =>
      if c =? sep then [] :: split_on sep t
      else match split_on sep t with
           | piece :: pieces => (c :: piece) :: pieces
           | [] => [[c]]
           end
  end.

(** The text before the first [sep] and the text after it. *)
Fixpoint cut_at (sep : N) (s : jsstring) : jsstring * jsstring :=
  match s with
  | [] => ([], [])
  | c :: t =>
      if c =? sep then ([], t)
      else let (a, b) := cut_at sep t in (c :: a, b)
  end.

Definition plus_to_space (s : jsstring) : jsstring :=
  map (fun c => if c =? 43 then 32 else c) s.

(** [new URLSearchParams(search)]: the leading [?] is dropped, the text is
    cut at each [&], empty pieces are skipped, a piece is a name and a
    value around its first [=], and in both [+] stands for a space.
    [window.location.search] is ASCII text; percent escapes are not
    modelled: a text with [%] or with a code unit above 127 gives [None]. *)
Definition URLSearchParams (search : jsstring)
  : option (list (jsstring * jsstring)) :=
  if existsb (fun c => (c =? 37) || (127 <? c)) search then None
  else
    let query := match search with
                 | 63 :: t => t
                 | _ => search
                 end in
    Some (map (fun piece => let (n, v) := cut_at 61 piece in
                            (plus_to_space n, plus_to_space v))
              (List.filter (fun piece => match piece with
                                         | [] => false
                                         | _ :: _ => true
                                         end)
                           (split_on 38 query))).

(** [params.get(name)]: the value of the first pair with that name. *)
Definition params_get (name : jsstring) (params : list (jsstring * jsstring))
  : option jsstring :=
  snd <$> List.find (fun nv => str_eqb (fst nv) name) params.

(** [x || undefined] on a string or [null]. *)
Definition or_undefined (x : option jsstring) : option jsstring :=
  match x with
  | Some (_ :: _) => x
  | _ => None
  end.

(** The link shown and shared: [fakeReferralBase] is the origin of the
    page followed by ["/?ref="]. *)
Definition shareLink (origin : jsstring) (u : WaitlistUser) : jsstring :=
  origin ++ js "/?ref=" ++ referralCode u.

(** The query of that link, as [window.location.search] gives it to the
    page opened through the link. *)
Definition linkSearch (u : WaitlistUser) : jsstring :=
  js "?ref=" ++ referralCode u.

Definition invalid_email : jsstring :=
  js "Please enter a valid email address.".

(** The characters of a referral code: letters, digits, [+] and [/]. *)
Definition code_char (c : N) : Prop :=
  (65 <= c <= 90) \/ (97 <= c <= 122) \/ (48 <= c <= 57) \/ c = 43 \/ c = 47.

(** A record as [addUser] writes it: no referrals yet, and the code
    derived from the email. *)
Definition as_created (u : WaitlistUser) : Prop :=
  referrals u = [] /\ generateReferralCode (email u) = Normal (referralCode u).

Section Component.
Context `{CaseMapping}.

(** The effect with no dependencies, run once when the page opens. *)
Definition mountEffect (search : jsstring) (p : PageState) (b : browser)
  : reaction :=
  match URLSearchParams search with
  | None => Beyond
  | Some params =>
      let ref' := or_undefined (params_get (js "ref") params) in
      let p := {| st_step := st_step p; st_email := st_email p;
                  st_inputError := st_inputError p; st_user := st_user p;
                  st_loading := st_loading p;
                  st_justJoined := st_justJoined p;
                  st_referralParam := ref' |} in
      match br_lastEmail b with
      | Some ((_ :: _) as lastEmail) =>
          match findUserByEmail lastEmail (br_world b) with
          | Returns (Some existing) w' =>
              Rendered {| st_step := dashboard; st_email := st_email p;
                          st_inputError := st_inputError p;
                          st_user := Some existing;
                          st_loading := st_loading p;
                          st_justJoined := st_justJoined p;
                          st_referralParam := st_referralParam p |}
                       {| br_world := w'; br_lastEmail := br_lastEmail b |}
          | Returns None w' =>
              Rendered p {| br_world := w'; br_lastEmail := br_lastEmail b |}
          | Throws e w' =>
              Uncaught e p {| br_world := w'; br_lastEmail := br_lastEmail b |}
          | Unmodelled => Beyond
          end
      | _ => Rendered p b
      end
  end.

(** [handleSubmit], up to the call of [setTimeout]: the state it leaves,
    and the email and referral code the callback has captured, if a
    callback is set. *)
Definition handleSubmit (p : PageState)
  : PageState * option (jsstring * option jsstring) :=
  if negb (validateEmail (st_email p)) then
    ({| st_step := st_step p; st_email := st_email p;
        st_inputError := invalid_email; st_user := st_user p;
        st_loading := st_loading p; st_justJoined := st_justJoined p;
        st_referralParam := st_referralParam p |}, None)
  else
    ({| st_step := st_step p; st_email := st_email p;
        st_inputError := []; st_user := st_user p;
        st_loading := true; st_justJoined := st_justJoined p;
        st_referralParam := st_referralParam p |},
     Some (st_email p, st_referralParam p)).

(** The callback of the timeout, run on the state and browser of the
    time it fires. *)
Definition submitTimeout (captured : jsstring * option jsstring)
  (p : PageState) (b : browser) : reaction :=
  let (email', referralParam') := captured in
  match addUser email' referralParam' (br_world b) with
  | Returns res w' =>
      match error res with
      | Some ((_ :: _) as error') =>
          Rendered {| st_step := st_step p; st_email := st_email p;
                      st_inputError := error'; st_user := st_user p;
                      st_loading := false; st_justJoined := st_justJoined p;
                      st_referralParam := st_referralParam p |}
                   {| br_world := w'; br_lastEmail := br_lastEmail b |}
      | _ =>
          Rendered {| st_step := dashboard; st_email := st_email p;
                      st_inputError := st_inputError p;
                      st_user := Some (user res);
                      st_loading := false; st_justJoined := true;
                      st_referralParam := st_referralParam p |}
                   {| br_world := w'; br_lastEmail := Some email' |}
      end
  | Throws e w' =>
      Uncaught e p {| br_world := w'; br_lastEmail := br_lastEmail b |}
  | Unmodelled => Beyond
  end.

(** [onChange] of the email field: [setEmail(e.target.value)]. *)
Definition setEmail (value : jsstring) (p : PageState) : PageState :=
  {| st_step := st_step p; st_email := value;
     st_inputError := st_inputError p; st_user := st_user p;
     st_loading := st_loading p; st_justJoined := st_justJoined p;
     st_referralParam := st_referralParam p |}.

(** A submission with nothing happening between [handleSubmit] and its
    timeout. *)
Definition submit (p : PageState) (b : browser) : reaction :=
  match handleSubmit p with
  | (p', Some captured) => submitTimeout captured p' b
  | (p', None) => Rendered p' b
  end.


(** [const rank = user ? getUserRank(user) : null]. *)
Definition renderRank (p : PageState) : M (option Z) :=
  match st_user p with
  | Some r => obj ← deref r; k ← getUserRank obj; mret (Some k)
  | None => mret None
  end.

(** [const total = getWaitlist().length]. *)
Definition renderTotal : M nat :=
  waitlist ← getWaitlist ≫= asUsers; mret (length waitlist).

End Component.

(** Opening the page: the component starts from its initial state and
    runs the mount effect. *)
Definition openPage `{CaseMapping} (search : jsstring) (b : browser)
  : reaction :=
  mountEffect search initialState b.

(** ** The referral code *)

Lemma list_ind3 {A} (P : list A -> Prop) :
  P [] -> (forall a, P [a]) -> (forall a b, P [a; b]) ->
  (forall a b c l, P l -> P (a :: b :: c :: l)) ->
  forall l, P l.
Proof.
  intros H0 H1 H2 H3 l.
  assert (P l /\ (forall a, P (a :: l)) /\ (forall a b, P (a :: b :: l)))
    as [? _]; [|assumption].
  induction l as [|x l (IH0 & IH1 & IH2)]; [now auto|].
  split; [apply IH1|]. split; [intros a; apply IH2|].
  intros a b. apply H3, IH0.
Qed.

Lemma b64index_b64char (i : N) : i < 64 -> b64index (b64char i) = Some i.
Proof.
  intros Hi.
  assert (Hall : forallb (fun k => bool_decide (b64index (b64char k) = Some k))
                         (map N.of_nat (seq 0 64)) = true)
    by (vm_compute; reflexivity).
  rewrite forallb_forall in Hall.
  specialize (Hall i). rewrite bool_decide_eq_true in Hall. apply Hall.
  apply in_map_iff. exists (N.to_nat i). split; [lia|].
  apply in_seq. lia.
Qed.

Lemma b64char_not_pad (i : N) : b64char i <> pad.
Proof.
  unfold b64char, pad.
  destruct (N.ltb_spec i 26); [lia|].
  destruct (N.ltb_spec i 52); [lia|].
  destruct (N.ltb_spec i 62); [lia|].
  destruct (N.eqb_spec i 62); lia.
Qed.

Lemma stripPadding_cons (c : N) (t : jsstring) :
  c <> pad -> stripPadding (c :: t) = c :: stripPadding t.
Proof.
  intros Hc. simpl. destruct (stripPadding t); [|reflexivity].
  destruct (N.eqb_spec c pad); [contradiction|reflexivity].
Qed.

Lemma stripPadding_b64char (i : N) (t : jsstring) :
  stripPadding (b64char i :: t) = b64char i :: stripPadding t.
Proof. apply stripPadding_cons, b64char_not_pad. Qed.

Lemma stripPadding_idem (s : jsstring) :
  stripPadding (stripPadding s) = stripPadding s.
Proof.
  induction s as [|c t IH]; [reflexivity|].
  cbn [stripPadding]. destruct (stripPadding t) as [|d t'] eqn:E.
  - destruct (N.eqb_spec c pad) as [|Hc]; [reflexivity|].
    apply (stripPadding_cons c [] Hc).
  - cbn [stripPadding] in IH |- *.
    fold (stripPadding t') in IH |- *. rewrite IH. reflexivity.
Qed.

Lemma sextets_of_bytes (a b c : N) :
  a <= 255 -> b <= 255 -> c <= 255 ->
  a / 4 < 64 /\ a mod 4 * 16 + b / 16 < 64 /\
  b mod 16 * 4 + c / 64 < 64 /\ c mod 64 < 64 /\
  a / 4 * 4 + (a mod 4 * 16 + b / 16) / 16 = a /\
  (a mod 4 * 16 + b / 16) mod 16 * 16 + (b mod 16 * 4 + c / 64) / 4 = b /\
  (b mod 16 * 4 + c / 64) mod 4 * 64 + c mod 64 = c.
Proof.
  intros Ha Hb Hc.
  pose proof (N.div_mod a 4). pose proof (N.mod_lt a 4).
  pose proof (N.div_mod b 16). pose proof (N.mod_lt b 16).
  pose proof (N.div_mod c 64). pose proof (N.mod_lt c 64).
  remember (a / 4) as qa. remember (a mod 4) as ra.
  remember (b / 16) as qb. remember (b mod 16) as rb.
  remember (c / 64) as qc. remember (c mod 64) as rc.
  assert (qb < 16) by lia. assert (qc < 4) by lia.
  assert (ra < 4) by lia. assert (rb < 16) by lia. assert (rc < 64) by lia.
  assert ((ra * 16 + qb) / 16 = ra)
    by (symmetry; apply (N.div_unique _ 16 ra qb); lia).
  assert ((ra * 16 + qb) mod 16 = qb)
    by (symmetry; apply (N.mod_unique _ 16 ra qb); lia).
  assert ((rb * 4 + qc) / 4 = rb)
    by (symmetry; apply (N.div_unique _ 4 rb qc); lia).
  assert ((rb * 4 + qc) mod 4 = qc)
    by (symmetry; apply (N.mod_unique _ 4 rb qc); lia).
  repeat split; lia.
Qed.

Lemma sextets_of_byte (a : N) :
  a <= 255 ->
  a / 4 < 64 /\ a mod 4 * 16 < 64 /\ a / 4 * 4 + (a mod 4 * 16) / 16 = a.
Proof.
  intros Ha. pose proof (sextets_of_bytes a 0 0 Ha) as Hs.
  change (0 / 16) with 0 in Hs. rewrite N.add_0_r in Hs.
  destruct Hs as (? & ? & _ & _ & ? & _); [lia|lia|]. auto.
Qed.

Lemma sextets_of_byte_pair (a b : N) :
  a <= 255 -> b <= 255 ->
  a / 4 < 64 /\ a mod 4 * 16 + b / 16 < 64 /\ b mod 16 * 4 < 64 /\
  a / 4 * 4 + (a mod 4 * 16 + b / 16) / 16 = a /\
  (a mod 4 * 16 + b / 16) mod 16 * 16 + (b mod 16 * 4) / 4 = b.
Proof.
  intros Ha Hb. pose proof (sextets_of_bytes a b 0 Ha Hb) as Hs.
  change (0 / 64) with 0 in Hs. rewrite N.add_0_r in Hs.
  destruct Hs as (? & ? & ? & _ & ? & ? & _); [lia|]. auto.
Qed.

Lemma decode_cons4 (c1 c2 c3 c4 : N) (rest : jsstring) :
  decodeReferralCode (c1 :: c2 :: c3 :: c4 :: rest) =
  (s1 ← b64index c1; s2 ← b64index c2; s3 ← b64index c3;
   s4 ← b64index c4; r ← decodeReferralCode rest;
   Some (s1 * 4 + s2 / 16 :: s2 mod 16 * 16 + s3 / 4
         :: s3 mod 4 * 64 + s4 :: r)).
Proof. reflexivity. Qed.

(** Decoding the unpadded base-64 text of a string of bytes gives the
    bytes back. *)
Lemma decode_base64 (l : jsstring) :
  latin1 l -> decodeReferralCode (stripPadding (base64 l)) = Some l.
Proof.
  unfold latin1. induction l as [|a|a b|a b c l IH] using list_ind3; intros Hl.
  - reflexivity.
  - apply Forall_cons in Hl as [Ha _].
    destruct (sextets_of_byte a Ha) as (H1 & H2 & H3).
    cbn [base64]. rewrite !stripPadding_b64char.
    change (stripPadding [pad; pad]) with (@nil N).
    cbn [decodeReferralCode]. rewrite !b64index_b64char by assumption.
    cbn. rewrite H3. reflexivity.
  - apply Forall_cons in Hl as [Ha Hl]. apply Forall_cons in Hl as [Hb _].
    destruct (sextets_of_byte_pair a b Ha Hb) as (H1 & H2 & H3 & H4 & H5).
    cbn [base64]. rewrite !stripPadding_b64char.
    change (stripPadding [pad]) with (@nil N).
    cbn [decodeReferralCode]. rewrite !b64index_b64char by assumption.
    cbn. rewrite H4, H5. reflexivity.
  - apply Forall_cons in Hl as [Ha Hl]. apply Forall_cons in Hl as [Hb Hl].
    apply Forall_cons in Hl as [Hc Hl].
    destruct (sextets_of_bytes a b c Ha Hb Hc)
      as (H1 & H2 & H3 & H4 & H5 & H6 & H7).
    cbn [base64]. rewrite !stripPadding_b64char, decode_cons4.
    rewrite !b64index_b64char by assumption. rewrite (IH Hl).
    cbn. rewrite H5, H6, H7. reflexivity.
Qed.

Lemma btoa_latin1 (e : jsstring) : latin1 e -> btoa e = Normal (base64 e).
Proof.
  intros He. unfold btoa.
  replace (forallb (fun c => c <=? 255) e) with true; [reflexivity|].
  symmetry. apply forallb_forall. intros c Hc.
  apply N.leb_le. unfold latin1 in He. rewrite Forall_forall in He.
  apply He, list_elem_of_In, Hc.
Qed.

Lemma btoa_Normal (e s : jsstring) :
  btoa e = Normal s -> latin1 e /\ s = base64 e.
Proof.
  unfold btoa. destruct (forallb _ e) eqn:E; [|discriminate].
  intros [= <-]. split; [|reflexivity].
  rewrite forallb_forall in E. apply Forall_forall. intros c Hc.
  apply N.leb_le, E, list_elem_of_In, Hc.
Qed.

Lemma btoa_not_latin1 (e : jsstring) :
  ~ latin1 e -> btoa e = Abrupt InvalidCharacterError.
Proof.
  intros He. destruct (btoa e) as [s|[]] eqn:E; [|reflexivity].
  destruct He. apply (btoa_Normal _ _ E).
Qed.

Lemma generateReferralCode_latin1 (e : jsstring) :
  latin1 e -> generateReferralCode e = Normal (stripPadding (base64 e)).
Proof. intros He. unfold generateReferralCode. rewrite btoa_latin1; auto. Qed.

Lemma generateReferralCode_Normal (e c : jsstring) :
  generateReferralCode e = Normal c ->
  latin1 e /\ c = stripPadding (base64 e).
Proof.
  unfold generateReferralCode. destruct (btoa e) as [s|] eqn:E; [|discriminate].
  intros [= <-]. apply btoa_Normal in E as [? ->]. auto.
Qed.

Lemma generateReferralCode_not_latin1 (e : jsstring) :
  ~ latin1 e -> generateReferralCode e = Abrupt InvalidCharacterError.
Proof.
  intros He. unfold generateReferralCode. rewrite btoa_not_latin1; auto.
Qed.

(** C3, as the claim states it, fails: ["A@x.com"] and ["a@x.com"] are
    the same email for the uniqueness check and have different codes. *)
Lemma referral_code_depends_on_case :
  ~ (forall e1 e2 : jsstring,
       @same_email latin1_case e1 e2 ->
       generateReferralCode e1 = generateReferralCode e2).
Proof.
  intros Hall.
  specialize (Hall (js "A@x.com") (js "a@x.com") eq_refl).
  vm_compute in Hall. discriminate Hall.
Qed.

(** C3 (amended): the referral code is a function of the raw email
    string, so identical emails have identical codes; it is the base-64
    text of the email without trailing padding, decoding it gives the
    email back, and so two emails that have the same code are the same
    string (emails that differ by letter case have different codes). *)
Theorem referral_code_reversible (e1 e2 c1 c2 : jsstring) :
  generateReferralCode e1 = Normal c1 ->
  generateReferralCode e2 = Normal c2 ->
  (e1 = e2 -> c1 = c2) /\
  (c1 = c2 -> e1 = e2) /\
  decodeReferralCode c1 = Some e1 /\
  stripPadding c1 = c1.
Proof.
  intros H1 H2.
  pose proof (generateReferralCode_Normal _ _ H1) as [L1 ->].
  pose proof (generateReferralCode_Normal _ _ H2) as [L2 ->].
  pose proof (decode_base64 e1 L1) as D1.
  pose proof (decode_base64 e2 L2) as D2.
  split; [intros ->; reflexivity|].
  split; [intros E; rewrite E in D1; congruence|].
  split; [exact D1|apply stripPadding_idem].
Qed.

Lemma referral_code_reversible_witness :
  (js "alice@x.com" = js "bob@x.com" ->
   js "YWxpY2VAeC5jb20" = js "Ym9iQHguY29t") /\
  (js "YWxpY2VAeC5jb20" = js "Ym9iQHguY29t" ->
   js "alice@x.com" = js "bob@x.com") /\
  decodeReferralCode (js "YWxpY2VAeC5jb20") = Some (js "alice@x.com") /\
  stripPadding (js "YWxpY2VAeC5jb20") = js "YWxpY2VAeC5jb20".
Proof.
  apply (referral_code_reversible (js "alice@x.com") (js "bob@x.com"));
    vm_compute; reflexivity.
Defined.

(** ** The storage cell *)

Lemma json_to_strings (rs : list jsstring) :
  mapM json_to_string (map JString rs) = Some rs.
Proof. induction rs as [|r rs IH]; [reflexivity|]. cbn. rewrite IH. reflexivity. Qed.

Lemma json_to_user_to_json (u : WaitlistUser) :
  json_to_user (user_to_json u) = Some u.
Proof.
  destruct u as [e c [r|] rs]; cbn -[mapM]; rewrite json_to_strings; reflexivity.
Qed.

Lemma json_to_waitlist_to_json (l : list WaitlistUser) :
  json_to_waitlist (waitlist_to_json l) = Some l.
Proof.
  unfold waitlist_to_json, json_to_waitlist.
  induction l as [|u l IH]; [reflexivity|].
  cbn [map mapM]. rewrite json_to_user_to_json. cbn.
  rewrite IH. reflexivity.
Qed.

(** What [saveWaitlist] writes is what [getWaitlist] reads back. *)
Lemma persisted_saved (l : list WaitlistUser) :
  persisted (Some (Parseable (waitlist_to_json l))) = Some l.
Proof. apply json_to_waitlist_to_json. Qed.

(** ** Calls, step by step *)

Lemma bind_Returns {A B} (m : M A) (f : A -> M B) (w w' : world) (a : A) :
  m w = Returns a w' -> (m ≫= f) w = f a w'.
Proof. intros E. unfold mbind, M_bind. rewrite E. reflexivity. Qed.

Lemma bind_Throws {A B} (m : M A) (f : A -> M B) (w w' : world) (e : exn) :
  m w = Throws e w' -> (m ≫= f) w = Throws e w'.
Proof. intros E. unfold mbind, M_bind. rewrite E. reflexivity. Qed.

Lemma allocAll_eq (l : list WaitlistUser) (s : option blob)
  (h : list WaitlistUser) :
  allocAll l {| store := s; heap := h |} =
  Returns (seq (length h) (length l)) {| store := s; heap := h ++ l |}.
Proof.
  revert h. induction l as [|u l IH]; intros h.
  - cbn. rewrite app_nil_r. reflexivity.
  - cbn [allocAll]. erewrite bind_Returns by reflexivity.
    cbn [store heap]. erewrite bind_Returns by apply IH.
    cbn. rewrite length_app, <- app_assoc. cbn.
    replace (length h + 1)%nat with (S (length h)) by lia. reflexivity.
Qed.

Lemma points_to_seq (h l h' : list WaitlistUser) :
  points_to (h ++ l ++ h') (seq (length h) (length l)) l.
Proof.
  revert h. induction l as [|u l IH]; intros h; [constructor|].
  constructor.
  - rewrite lookup_app_r by lia. rewrite Nat.sub_diag. reflexivity.
  - specialize (IH (h ++ [u])). rewrite length_app in IH. cbn in IH.
    rewrite <- app_assoc in IH. cbn in IH.
    replace (length h + 1)%nat with (S (length h)) in IH by lia. exact IH.
Qed.

Lemma points_to_app (h : list WaitlistUser) (rs1 rs2 : list ref)
  (us1 us2 : list WaitlistUser) :
  points_to h rs1 us1 -> points_to h rs2 us2 ->
  points_to h (rs1 ++ rs2) (us1 ++ us2).
Proof. apply Forall2_app. Qed.

(** Writing to one object leaves the objects behind other references. *)
Lemma points_to_insert (h : list WaitlistUser) (rs : list ref)
  (us : list WaitlistUser) (r : ref) (u : WaitlistUser) :
  points_to h rs us -> r ∉ rs -> points_to (<[r := u]> h) rs us.
Proof.
  intros Hp Hr. induction Hp as [|r' u' rs us Hh Hp IH]; [constructor|].
  apply not_elem_of_cons in Hr as [Hne Hr].
  constructor; [|apply IH, Hr].
  rewrite list_lookup_insert_ne; [exact Hh|congruence].
Qed.

Lemma derefAll_eq (s : option blob) (h : list WaitlistUser) (rs : list ref)
  (us : list WaitlistUser) :
  points_to h rs us ->
  derefAll rs {| store := s; heap := h |} =
  Returns us {| store := s; heap := h |}.
Proof.
  induction 1 as [|r u rs us Hr _ IH]; [reflexivity|].
  cbn [derefAll].
  erewrite bind_Returns by (unfold deref; cbn [heap]; rewrite Hr; reflexivity).
  erewrite bind_Returns by apply IH. reflexivity.
Qed.

Lemma findObj_eq (p : WaitlistUser -> bool) (s : option blob)
  (h : list WaitlistUser) (rs : list ref) (us : list WaitlistUser) :
  points_to h rs us ->
  findObj p rs {| store := s; heap := h |} =
  Returns (i ← find_index p us; rs !! i) {| store := s; heap := h |}.
Proof.
  induction 1 as [|r u rs us Hr _ IH]; [reflexivity|].
  cbn [findObj find_index].
  erewrite bind_Returns by (unfold deref; cbn [heap]; rewrite Hr; reflexivity).
  destruct (p u); [reflexivity|].
  rewrite IH. destruct (find_index p us); reflexivity.
Qed.

Lemma find_index_Some {A} (p : A -> bool) (l : list A) (i : nat) :
  find_index p l = Some i <->
  exists x, l !! i = Some x /\ p x = true /\
            forall j y, (j < i)%nat -> l !! j = Some y -> p y = false.
Proof.
  revert i. induction l as [|x l IH]; intros i; cbn.
  - split; [discriminate|]. intros (y & Hy & _). discriminate.
  - destruct (p x) eqn:Px.
    + split.
      * intros [= <-]. exists x. repeat split; auto. intros; lia.
      * intros (y & Hy & Py & Hlt). destruct i as [|i]; [reflexivity|].
        specialize (Hlt O x ltac:(lia) eq_refl). congruence.
    + rewrite fmap_Some. split.
      * intros (k & E & ->). apply IH in E as (y & Hy & Py & Hlt).
        exists y. repeat split; auto.
        intros [|j] z Hj Hz; cbn in Hz; [congruence|].
        apply (Hlt j); [lia|assumption].
      * intros (y & Hy & Py & Hlt). destruct i as [|i]; cbn in Hy.
        -- congruence.
        -- exists i. split; [|reflexivity]. apply IH.
           exists y. repeat split; auto.
           intros j z Hj Hz. apply (Hlt (S j)); [lia|assumption].
Qed.

Lemma find_index_None {A} (p : A -> bool) (l : list A) :
  find_index p l = None <-> Forall (fun x => p x = false) l.
Proof.
  induction l as [|x l IH]; cbn.
  - split; [constructor|reflexivity].
  - destruct (p x) eqn:Px.
    + split; [discriminate|]. intros Hf. apply Forall_cons in Hf as [? _].
      congruence.
    + rewrite Forall_cons, fmap_None, IH. tauto.
Qed.

(** The first element that satisfies [p] sits behind a prefix of elements
    that do not. *)
Lemma find_index_first {A} (p : A -> bool) (l1 l2 : list A) (x : A) :
  Forall (fun y => p y = false) l1 -> p x = true ->
  find_index p (l1 ++ x :: l2) = Some (length l1).
Proof.
  intros Hl Hx. induction Hl as [|y l1 Hy _ IH]; cbn.
  - rewrite Hx. reflexivity.
  - rewrite Hy, IH. reflexivity.
Qed.

Lemma find_index_lt {A} (p : A -> bool) (l : list A) (i : nat) :
  find_index p l = Some i -> (i < length l)%nat.
Proof.
  intros E. apply find_index_Some in E as (x & Hx & _).
  eapply lookup_lt_Some, Hx.
Qed.

Lemma points_to_alloc (h l : list WaitlistUser) :
  points_to (h ++ l) (seq (length h) (length l)) l.
Proof.
  pose proof (points_to_seq h l []) as Hp. rewrite app_nil_r in Hp. exact Hp.
Qed.

Lemma points_to_extend (h h' : list WaitlistUser) (rs : list ref)
  (us : list WaitlistUser) :
  points_to h rs us -> points_to (h ++ h') rs us.
Proof.
  intros Hp. eapply Forall2_impl; [exact Hp|].
  intros r u Hr. cbn in Hr. apply lookup_app_l_Some, Hr.
Qed.

Lemma points_to_lt (h : list WaitlistUser) (rs : list ref)
  (us : list WaitlistUser) (r : ref) :
  points_to h rs us -> r ∈ rs -> (r < length h)%nat.
Proof.
  intros Hp Hr. induction Hp as [|r' u rs us Hh _ IH].
  - apply elem_of_nil in Hr as [].
  - apply elem_of_cons in Hr as [->|Hr]; [|auto].
    eapply lookup_lt_Some, Hh.
Qed.

Section StoreFacts.
Context `{CaseMapping}.

(** [getWaitlist()] used as an array: one new object per stored record. *)
Lemma users_eq (s : option blob) (h l : list WaitlistUser) :
  persisted s = Some l ->
  (getWaitlist ≫= asUsers) {| store := s; heap := h |} =
  Returns (seq (length h) (length l)) {| store := s; heap := h ++ l |}.
Proof.
  intros Hs. unfold getWaitlist.
  destruct s as [[|v]|]; cbn in Hs.
  - injection Hs as <-. cbn. rewrite app_nil_r. reflexivity.
  - unfold mbind, M_bind, getItem. cbn [store]. rewrite Hs.
    rewrite allocAll_eq. reflexivity.
  - injection Hs as <-. cbn. rewrite app_nil_r. reflexivity.
Qed.

Lemma findUserByEmail_eq (e : jsstring) (s : option blob)
  (h l : list WaitlistUser) :
  persisted s = Some l ->
  findUserByEmail e {| store := s; heap := h |} =
  Returns ((fun i => length h + i)%nat <$> find_index (has_email e) l)
          {| store := s; heap := h ++ l |}.
Proof.
  intros Hs. unfold findUserByEmail.
  erewrite bind_Returns by (apply users_eq, Hs). cbv beta.
  change (fun u => str_eqb (toLowerCase (email u)) (toLowerCase e))
    with (has_email e).
  rewrite (findObj_eq _ _ _ _ l) by apply points_to_alloc.
  destruct (find_index (has_email e) l) as [i|] eqn:E; [|reflexivity].
  cbn. rewrite lookup_seq_lt by (eapply find_index_lt, E). reflexivity.
Qed.

Lemma findUserByCode_eq (c : jsstring) (s : option blob)
  (h l : list WaitlistUser) :
  persisted s = Some l ->
  findUserByCode c {| store := s; heap := h |} =
  Returns ((fun i => length h + i)%nat <$> find_index (has_code c) l)
          {| store := s; heap := h ++ l |}.
Proof.
  intros Hs. unfold findUserByCode.
  erewrite bind_Returns by (apply users_eq, Hs). cbv beta.
  change (fun u => str_eqb (referralCode u) c) with (has_code c).
  rewrite (findObj_eq _ _ _ _ l) by apply points_to_alloc.
  destruct (find_index (has_code c) l) as [i|] eqn:E; [|reflexivity].
  cbn. rewrite lookup_seq_lt by (eapply find_index_lt, E). reflexivity.
Qed.

(** [addUser] on an email that is on the waitlist: the record found is
    returned with the error, and nothing is written. *)
Lemma addUser_existing (e : jsstring) (c : option jsstring)
  (s : option blob) (h l : list WaitlistUser) (i : nat) :
  persisted s = Some l ->
  find_index (has_email e) l = Some i ->
  addUser e c {| store := s; heap := h |} =
  Returns {| user := (length ((h ++ l) ++ l) + i)%nat;
             error := Some already_on_waitlist |}
          {| store := s; heap := ((h ++ l) ++ l) ++ l |}.
Proof.
  intros Hs Hi. unfold addUser.
  erewrite bind_Returns by (apply users_eq, Hs). cbv beta.
  erewrite bind_Returns by (apply findUserByEmail_eq, Hs). cbv beta.
  rewrite Hi. cbn [fmap option_fmap option_map].
  erewrite bind_Returns by (apply findUserByEmail_eq, Hs). cbv beta.
  rewrite Hi. reflexivity.
Qed.

(** [addUser] on a new email that [btoa] rejects: the call throws before
    anything is written. *)
Lemma addUser_throws (e : jsstring) (c : option jsstring)
  (s : option blob) (h l : list WaitlistUser) :
  persisted s = Some l ->
  find_index (has_email e) l = None ->
  ~ latin1 e ->
  addUser e c {| store := s; heap := h |} =
  Throws InvalidCharacterError {| store := s; heap := (h ++ l) ++ l |}.
Proof.
  intros Hs Hi He. unfold addUser.
  erewrite bind_Returns by (apply users_eq, Hs). cbv beta.
  erewrite bind_Returns by (apply findUserByEmail_eq, Hs). cbv beta.
  rewrite Hi. cbn [fmap option_fmap option_map].
  erewrite bind_Throws; [reflexivity|].
  rewrite generateReferralCode_not_latin1 by assumption. reflexivity.
Qed.

Lemma saveWaitlist_eq (s : option blob) (h : list WaitlistUser)
  (rs : list ref) (us : list WaitlistUser) :
  points_to h rs us ->
  saveWaitlist rs {| store := s; heap := h |} =
  Returns tt {| store := Some (Parseable (waitlist_to_json us)); heap := h |}.
Proof.
  intros Hp. unfold saveWaitlist.
  erewrite bind_Returns by (apply derefAll_eq, Hp). reflexivity.
Qed.

(** The array [addUser] saves: the objects of its own [getWaitlist()] call
    and the new object, whatever was allocated afterwards. *)
Lemma saved_refs_points_to (h l rest : list WaitlistUser) (u : WaitlistUser) :
  points_to ((((h ++ l) ++ l) ++ [u]) ++ rest)
            (seq (length h) (length l) ++ [length ((h ++ l) ++ l)])
            (l ++ [u]).
Proof.
  apply points_to_app.
  - do 3 apply points_to_extend. apply points_to_alloc.
  - constructor; [|constructor].
    apply lookup_app_l_Some. rewrite lookup_app_r by lia.
    rewrite Nat.sub_diag. reflexivity.
Qed.

Lemma points_to_last (h : list WaitlistUser) (rs : list ref)
  (us : list WaitlistUser) (r : ref) (u : WaitlistUser) :
  points_to h (rs ++ [r]) (us ++ [u]) -> h !! r = Some u.
Proof.
  intros Hp. apply Forall2_app_inv_l in Hp as (us1 & us2 & _ & H2 & E).
  inversion H2 as [|r' u' rs' us' Hr Hnil]; subst. inversion Hnil; subst.
  apply app_inj_tail in E as [_ ->]. exact Hr.
Qed.

(** The referral step of [addUser]: the referrer is looked up in a new
    [getWaitlist()] array, so the object that receives the email is a new
    one, and every object that existed before the step is unchanged. *)
Lemma credit_referrer_eq (code e : jsstring) (s : option blob)
  (h l : list WaitlistUser) :
  persisted s = Some l ->
  exists hf,
    (findUserByCode code ≫= fun referrer =>
       match referrer with
       | Some r =>
           obj ← deref r;
           if negb (existsb (str_eqb e) (referrals obj))
           then push_referral r e
           else mret tt
       | None => mret tt
       end) {| store := s; heap := h |} =
    Returns tt {| store := s; heap := hf |}
    /\ forall rs us, points_to h rs us -> points_to hf rs us.
Proof.
  intros Hs.
  erewrite bind_Returns by (apply findUserByCode_eq, Hs). cbv beta.
  destruct (find_index (has_code code) l) as [j|] eqn:Ej;
    cbn [fmap option_fmap option_map].
  - apply find_index_Some in Ej as (obj & Hj & _).
    assert ((h ++ l) !! (length h + j)%nat = Some obj) as Hobj.
    { rewrite lookup_app_r by lia.
      replace (length h + j - length h)%nat with j by lia. exact Hj. }
    erewrite bind_Returns
      by (unfold deref; cbn [heap]; rewrite Hobj; reflexivity).
    cbv beta. destruct (negb _).
    + eexists. split.
      * unfold push_referral. cbn [heap store]. rewrite Hobj. reflexivity.
      * intros rs us Hp. apply points_to_insert.
        -- apply points_to_extend, Hp.
        -- intros Hin. apply (points_to_lt _ _ _ _ Hp) in Hin. lia.
    + eexists. split; [reflexivity|].
      intros rs us Hp. apply points_to_extend, Hp.
  - eexists. split; [reflexivity|].
    intros rs us Hp. apply points_to_extend, Hp.
Qed.

(** [addUser] on a new email that [btoa] accepts: the array that is saved
    is the one read at the start with the new record pushed. *)
Lemma addUser_new (e : jsstring) (c : option jsstring)
  (s : option blob) (h l : list WaitlistUser) :
  persisted s = Some l ->
  find_index (has_email e) l = None ->
  latin1 e ->
  exists h',
    addUser e c {| store := s; heap := h |} =
    Returns {| user := length ((h ++ l) ++ l); error := None |}
            {| store := Some (Parseable (waitlist_to_json (l ++ [new_user e c])));
               heap := h' |}
    /\ h' !! length ((h ++ l) ++ l) = Some (new_user e c).
Proof.
  intros Hs Hi He. unfold addUser.
  erewrite bind_Returns by (apply users_eq, Hs). cbv beta.
  erewrite bind_Returns by (apply findUserByEmail_eq, Hs). cbv beta.
  rewrite Hi. cbn [fmap option_fmap option_map].
  erewrite bind_Returns
    by (rewrite generateReferralCode_latin1 by assumption; reflexivity).
  cbv beta. fold (new_user e c).
  erewrite bind_Returns by reflexivity. cbv beta zeta. cbn [store heap].
  pose proof (saved_refs_points_to h l [] (new_user e c)) as P0.
  rewrite app_nil_r in P0.
  assert (forall hf,
    points_to hf (seq (length h) (length l) ++ [length ((h ++ l) ++ l)])
              (l ++ [new_user e c]) ->
    exists h',
      (saveWaitlist (seq (length h) (length l) ++ [length ((h ++ l) ++ l)]) ≫=
       (fun _ => mret {| user := length ((h ++ l) ++ l); error := None |}))
        {| store := s; heap := hf |} =
      Returns {| user := length ((h ++ l) ++ l); error := None |}
        {| store := Some (Parseable (waitlist_to_json (l ++ [new_user e c])));
           heap := h' |}
      /\ h' !! length ((h ++ l) ++ l) = Some (new_user e c)) as Hsave.
  { intros hf Hp. exists hf. split.
    - erewrite bind_Returns by (apply saveWaitlist_eq, Hp). reflexivity.
    - eapply points_to_last, Hp. }
  destruct c as [[|x code]|].
  - erewrite bind_Returns by reflexivity. apply Hsave, P0.
  - destruct (credit_referrer_eq (x :: code) e s
                (((h ++ l) ++ l) ++ [new_user e (Some (x :: code))]) l Hs)
      as (hf & Hc & Hp).
    erewrite bind_Returns by apply Hc. apply Hsave, Hp, P0.
  - erewrite bind_Returns by reflexivity. apply Hsave, P0.
Qed.

End StoreFacts.

Lemma getUserRank_eq (u : WaitlistUser) (s : option blob)
  (h l : list WaitlistUser) :
  persisted s = Some l ->
  getUserRank u {| store := s; heap := h |} =
  Returns (findIndex (fun v => str_eqb (email v) (email u))
                     (sort byReferrals l) + 1)%Z
          {| store := s; heap := h ++ l |}.
Proof.
  intros Hs. unfold getUserRank.
  erewrite bind_Returns by (apply users_eq, Hs). cbv beta.
  erewrite bind_Returns by (apply derefAll_eq, points_to_alloc).
  reflexivity.
Qed.

(** ** Properties of the store *)

Example validateEmail_alice : validateEmail (js "alice@x.com") = true.
Proof. vm_compute. reflexivity. Qed.

Example validateEmail_no_dot : validateEmail (js "alice@xcom.") = false.
Proof. vm_compute. reflexivity. Qed.

Example validateEmail_two_ats : validateEmail (js "a@b@x.com") = false.
Proof. vm_compute. reflexivity. Qed.

Example validateEmail_space : validateEmail (js "al ice@x.com") = false.
Proof. vm_compute. reflexivity. Qed.

Lemma has_email_true `{CaseMapping} (e : jsstring) (u : WaitlistUser) :
  has_email e u = true <-> same_email (email u) e.
Proof. unfold has_email, str_eqb, same_email. apply bool_decide_eq_true. Qed.

Lemma has_email_false `{CaseMapping} (e : jsstring) (u : WaitlistUser) :
  has_email e u = false <-> ~ same_email (email u) e.
Proof. unfold has_email, str_eqb, same_email. apply bool_decide_eq_false. Qed.

Lemma latin1_dec (e : jsstring) : {latin1 e} + {~ latin1 e}.
Proof. unfold latin1. apply Forall_dec. intros c. apply N.le_dec. Qed.

(** C1 (the code departs from the claim): with alice on the waitlist,
    registering bob with alice's referral code succeeds, and the waitlist
    that is saved holds alice's record as it was, with no referral: her
    referral count stays 0. *)
Theorem referral_is_lost :
  @addUser latin1_case bob_email (Some (referralCode alice)) (stored [alice])
  = Returns {| user := 2; error := None |} after_bob /\
  persisted (store after_bob) = Some [alice; bob] /\
  getReferralCount alice = 0%nat.
Proof. repeat split; vm_compute; reflexivity. Qed.

(** C2: on a waitlist that has a record with the email [e], compared
    without case, [addUser e c] returns that record (the first such one)
    with the error message, and the storage cell is left as it was. *)
Theorem addUser_already_registered `{CaseMapping} (e : jsstring)
  (c : option jsstring) (w : world) (l1 l2 : list WaitlistUser)
  (u : WaitlistUser) :
  persisted (store w) = Some (l1 ++ u :: l2) ->
  Forall (fun v => ~ same_email (email v) e) l1 ->
  same_email (email u) e ->
  exists r w',
    addUser e c w = Returns {| user := r; error := Some already_on_waitlist |} w'
    /\ store w' = store w
    /\ heap w' !! r = Some u.
Proof.
  intros Hs Hl1 Hu. destruct w as [s h]. cbn [store] in *.
  assert (find_index (has_email e) (l1 ++ u :: l2) = Some (length l1)) as Hi.
  { apply find_index_first; [|apply has_email_true, Hu].
    eapply Forall_impl; [exact Hl1|]. intros v. apply has_email_false. }
  do 2 eexists. split; [apply (addUser_existing _ _ _ _ _ _ Hs Hi)|].
  split; [reflexivity|]. cbn [heap].
  rewrite lookup_app_r by lia.
  replace (_ - _)%nat with (length l1) by lia.
  apply list_lookup_middle. reflexivity.
Qed.

Lemma addUser_already_registered_witness :
  exists r w',
    @addUser latin1_case (js "ALICE@x.com") (Some (js "Ym9iQHguY29t"))
      (stored [alice])
    = Returns {| user := r; error := Some already_on_waitlist |} w'
    /\ store w' = store (stored [alice])
    /\ heap w' !! r = Some alice.
Proof.
  apply (@addUser_already_registered latin1_case (js "ALICE@x.com")
           (Some (js "Ym9iQHguY29t")) (stored [alice]) [] [] alice).
  - vm_compute. reflexivity.
  - constructor.
  - vm_compute. reflexivity.
Defined.

(** Registering and then looking the email up, for the emails [btoa]
    accepts. *)
Lemma addUser_then_find `{CaseMapping} (e : jsstring) (c : option jsstring)
  (w : world) (l : list WaitlistUser) :
  persisted (store w) = Some l -> latin1 e ->
  exists res w1 r w2 u,
    addUser e c w = Returns res w1 /\
    findUserByEmail e w1 = Returns (Some r) w2 /\
    heap w2 !! r = Some u /\ same_email (email u) e.
Proof.
  intros Hs He. destruct w as [s h]. cbn [store] in Hs.
  destruct (find_index (has_email e) l) as [i|] eqn:Hi.
  - pose proof (find_index_lt _ _ _ Hi) as Hlt.
    pose proof Hi as Hi'. apply find_index_Some in Hi' as (u & Hu & Pu & _).
    eexists _, _, _, _, u.
    split; [apply (addUser_existing _ _ _ _ _ _ Hs Hi)|].
    split; [rewrite (findUserByEmail_eq _ _ _ l Hs), Hi; reflexivity|].
    split; [|apply has_email_true, Pu]. cbn [heap].
    rewrite lookup_app_r by lia.
    replace (_ - _)%nat with i by lia. exact Hu.
  - destruct (addUser_new e c s h l Hs Hi He) as (h' & Ha & _).
    assert (find_index (has_email e) (l ++ [new_user e c]) = Some (length l))
      as Hi'.
    { apply find_index_first; [apply find_index_None, Hi|].
      apply has_email_true. reflexivity. }
    eexists _, _, _, _, (new_user e c).
    split; [exact Ha|].
    split; [rewrite (findUserByEmail_eq _ _ _ _ (persisted_saved _)), Hi';
            reflexivity|].
    split; [|reflexivity]. cbn [heap].
    rewrite lookup_app_r by lia.
    replace (_ - _)%nat with (length l) by lia.
    apply list_lookup_middle. reflexivity.
Qed.

(** C5 (the code departs from the claim): on the empty waitlist,
    registering an email that passes the check of the form and has a code
    unit above 255 throws
    [InvalidCharacterError] out of [btoa]; nothing is stored, and looking
    the email up afterwards finds no record. *)
Theorem register_then_find_fails `{CaseMapping} :
  exists w1 w2,
    validateEmail lukasz_email = true /\
    addUser lukasz_email None {| store := None; heap := [] |}
    = Throws InvalidCharacterError w1 /\
    store w1 = None /\
    findUserByEmail lukasz_email w1 = Returns None w2.
Proof.
  do 2 eexists. split; [vm_compute; reflexivity|]. split; [|split].
  - apply (addUser_throws lukasz_email None None [] []); try reflexivity.
    intros Hl. apply Forall_cons in Hl as [Hl _]. vm_compute in Hl.
    apply Hl. reflexivity.
  - reflexivity.
  - apply (findUserByEmail_eq lukasz_email None _ []). reflexivity.
Qed.

(** C6, as the claim states it, fails: the text [{}] is not a waitlist,
    and [getWaitlist] returns the object it parses to, not an empty array. *)
Lemma getWaitlist_returns_other_json :
  ~ (forall w : world,
       persisted (store w) = None \/ store w = None
       \/ store w = Some Unparseable ->
       getWaitlist w = Returns (VUsers []) w).
Proof.
  intros Hall.
  specialize (Hall {| store := Some (Parseable (JObject [])); heap := [] |}).
  cbn in Hall. specialize (Hall (or_introl eq_refl)). discriminate Hall.
Qed.

(** C6 (amended): when the item is missing, or its text is one that
    [JSON.parse] rejects (the empty text included), [getWaitlist] returns
    an empty array and does not throw. *)
Theorem getWaitlist_recovers (w : world) :
  store w = None \/ store w = Some Unparseable ->
  getWaitlist w = Returns (VUsers []) w.
Proof.
  destruct w as [s h]. cbn [store].
  intros [-> | ->]; reflexivity.
Qed.

Lemma getWaitlist_recovers_witness :
  getWaitlist {| store := Some Unparseable; heap := [alice] |}
  = Returns (VUsers []) {| store := Some Unparseable; heap := [alice] |}.
Proof.
  apply (getWaitlist_recovers {| store := Some Unparseable; heap := [alice] |}).
  right. reflexivity.
Defined.

(** A text that parses to a value that is not a waitlist is returned as
    parsed. *)
Lemma getWaitlist_other (w : world) (v : json) :
  store w = Some (Parseable v) -> json_to_waitlist v = None ->
  getWaitlist w = Returns (VOther v) w.
Proof.
  destruct w as [s h]. cbn [store]. intros -> Hv.
  unfold getWaitlist, mbind, M_bind, getItem. cbn [store]. rewrite Hv.
  reflexivity.
Qed.

Lemma unique_emails_snoc `{CaseMapping} (l : list WaitlistUser)
  (u : WaitlistUser) :
  unique_emails l -> find_index (has_email (email u)) l = None ->
  unique_emails (l ++ [u]).
Proof.
  unfold unique_emails. intros Hl Hi.
  rewrite map_app. apply NoDup_app. split; [exact Hl|].
  split; [|apply NoDup_singleton].
  intros x Hx Hx'. apply list_elem_of_singleton in Hx'. subst x.
  apply list_elem_of_fmap in Hx as (v & Hv & Hin).
  apply find_index_None in Hi. rewrite Forall_forall in Hi.
  apply Hi, has_email_false in Hin. apply Hin. symmetry. exact Hv.
Qed.

Lemma addUser_unique_emails `{CaseMapping} (e : jsstring)
  (c : option jsstring) (s : option blob) (h l : list WaitlistUser) :
  persisted s = Some l ->
  unique_emails l ->
  match addUser e c {| store := s; heap := h |} with
  | Returns _ w' | Throws _ w' =>
      exists l', persisted (store w') = Some l' /\ unique_emails l'
  | Unmodelled => False
  end.
Proof.
  intros Hs Hl.
  destruct (find_index (has_email e) l) as [i|] eqn:Hi.
  - rewrite (addUser_existing _ _ _ _ _ _ Hs Hi). exists l. auto.
  - destruct (latin1_dec e) as [He|He].
    + destruct (addUser_new e c s h l Hs Hi He) as (h' & -> & _).
      exists (l ++ [new_user e c]). split; [apply persisted_saved|].
      apply unique_emails_snoc; assumption.
    + rewrite (addUser_throws _ _ _ _ _ Hs Hi He). exists l. auto.
Qed.

(** Every storage cell the page can bring about holds a waitlist with one
    record per lowercase email. *)
Lemma reachable_unique_emails `{CaseMapping} (s : option blob) :
  reachable s -> exists l, persisted s = Some l /\ unique_emails l.
Proof.
  induction 1 as [|s h e c res w' _ (l & Hs & Hl) Ha].
  - exists []. split; [reflexivity|]. apply NoDup_nil. exact I.
  - pose proof (addUser_unique_emails e c s h l Hs Hl) as Hinv.
    rewrite Ha in Hinv. exact Hinv.
Qed.

(** C7: a call of [addUser], with any email and any referral code, on a
    waitlist with one record per lowercase email leaves such a waitlist,
    whether the call returns or throws; the other operations
    ([getWaitlist], [findUserByEmail], [findUserByCode], [getUserRank])
    return and leave the storage cell as it was. *)
Theorem store_keeps_unique_emails `{CaseMapping} (e : jsstring)
  (c : option jsstring) (w : world) (l : list WaitlistUser) :
  persisted (store w) = Some l ->
  unique_emails l ->
  match addUser e c w with
  | Returns _ w' | Throws _ w' =>
      exists l', persisted (store w') = Some l' /\ unique_emails l'
  | Unmodelled => False
  end /\
  (exists v w', getWaitlist w = Returns v w' /\ store w' = store w) /\
  (forall e', exists r w',
      findUserByEmail e' w = Returns r w' /\ store w' = store w) /\
  (forall code, exists r w',
      findUserByCode code w = Returns r w' /\ store w' = store w) /\
  (forall u, exists k w',
      getUserRank u w = Returns k w' /\ store w' = store w).
Proof.
  intros Hs Hl. destruct w as [s h]. cbn [store] in Hs.
  split; [|split; [|split; [|split]]].
  - apply (addUser_unique_emails e c s h l Hs Hl).
  - destruct s as [[|v]|]; cbn in Hs.
    + do 2 eexists. split; reflexivity.
    + exists (VUsers (seq (length h) (length l))),
        {| store := Some (Parseable v); heap := h ++ l |}.
      split; [|reflexivity].
      unfold getWaitlist, mbind, M_bind, getItem. cbn [store]. rewrite Hs.
      rewrite allocAll_eq. reflexivity.
    + do 2 eexists. split; reflexivity.
  - intros e'. do 2 eexists.
    split; [apply (findUserByEmail_eq _ _ _ _ Hs)|reflexivity].
  - intros code. do 2 eexists.
    split; [apply (findUserByCode_eq _ _ _ _ Hs)|reflexivity].
  - intros u. do 2 eexists.
    split; [apply (getUserRank_eq _ _ _ _ Hs)|reflexivity].
Qed.

Lemma store_keeps_unique_emails_witness :
  match @addUser latin1_case bob_email (Some (js "nobody")) (stored [alice]) with
  | Returns _ w' | Throws _ w' =>
      exists l', persisted (store w') = Some l' /\ @unique_emails latin1_case l'
  | Unmodelled => False
  end /\
  (exists v w', getWaitlist (stored [alice]) = Returns v w'
                /\ store w' = store (stored [alice])) /\
  (forall e', exists r w',
      @findUserByEmail latin1_case e' (stored [alice]) = Returns r w'
      /\ store w' = store (stored [alice])) /\
  (forall code, exists r w',
      findUserByCode code (stored [alice]) = Returns r w'
      /\ store w' = store (stored [alice])) /\
  (forall u, exists k w',
      getUserRank u (stored [alice]) = Returns k w'
      /\ store w' = store (stored [alice])).
Proof.
  apply (@store_keeps_unique_emails latin1_case bob_email
           (Some (js "nobody")) (stored [alice]) [alice]).
  - vm_compute. reflexivity.
  - unfold unique_emails. apply NoDup_singleton.
Defined.

(** C8: a call of [addUser] that returns without error saves the waitlist
    it found with one record added at the end: no record is removed or
    moved, every record that was there keeps all its fields, and the new
    record has the email, the code derived from it, the referral code
    given and no referrals. *)
Theorem addUser_appends `{CaseMapping} (e : jsstring) (c : option jsstring)
  (w w' : world) (l : list WaitlistUser) (res : AddResult) :
  persisted (store w) = Some l ->
  addUser e c w = Returns res w' ->
  error res = None ->
  exists u,
    persisted (store w') = Some (l ++ [u]) /\
    heap w' !! user res = Some u /\
    email u = e /\ generateReferralCode e = Normal (referralCode u) /\
    referredBy u = c /\ referrals u = [] /\
    forall i old, l !! i = Some old -> (l ++ [u]) !! i = Some old.
Proof.
  intros Hs Ha Hres. destruct w as [s h]. cbn [store] in Hs.
  destruct (find_index (has_email e) l) as [i|] eqn:Hi.
  - rewrite (addUser_existing _ _ _ _ _ _ Hs Hi) in Ha.
    injection Ha as <- <-. discriminate Hres.
  - destruct (latin1_dec e) as [He|He].
    + destruct (addUser_new e c s h l Hs Hi He) as (h' & Ha' & Hu).
      rewrite Ha' in Ha. injection Ha as <- <-.
      exists (new_user e c). cbn [store heap user].
      split; [apply persisted_saved|]. split; [exact Hu|].
      split; [reflexivity|].
      split; [apply generateReferralCode_latin1, He|].
      split; [reflexivity|]. split; [reflexivity|].
      intros i old Hold. apply lookup_app_l_Some, Hold.
    + rewrite (addUser_throws _ _ _ _ _ Hs Hi He) in Ha. discriminate Ha.
Qed.

Lemma addUser_appends_witness :
  exists u,
    persisted (store after_bob) = Some ([alice] ++ [u]) /\
    heap after_bob !! user {| user := 2; error := None |} = Some u /\
    email u = bob_email /\
    generateReferralCode bob_email = Normal (referralCode u) /\
    referredBy u = Some (referralCode alice) /\ referrals u = [] /\
    forall i old, [alice] !! i = Some old -> ([alice] ++ [u]) !! i = Some old.
Proof.
  apply (@addUser_appends latin1_case bob_email (Some (referralCode alice))
           (stored [alice]) after_bob [alice] {| user := 2; error := None |});
    vm_compute; reflexivity.
Defined.

(** C9: the store functions of the two page variants agree on every
    argument and every world, in what they return and in the world they
    leave. *)
Theorem variants_agree `{CaseMapping} :
  (forall e, App.generateReferralCode e = Variant.generateReferralCode e) /\
  (forall w, App.getWaitlist w = Variant.getWaitlist w) /\
  (forall users w, App.saveWaitlist users w = Variant.saveWaitlist users w) /\
  (forall e w, App.findUserByEmail e w = Variant.findUserByEmail e w) /\
  (forall c w, App.findUserByCode c w = Variant.findUserByCode c w) /\
  (forall e c w, App.addUser e c w = Variant.addUser e c w) /\
  (forall u, App.getReferralCount u = Variant.getReferralCount u) /\
  (forall u w, App.getUserRank u w = Variant.getUserRank u w).
Proof. repeat split. Qed.

(** Registering with a referral code that no record has, for the emails
    [btoa] accepts: the call returns without error, the new record keeps
    the code in [referredBy], and the records that were there are saved as
    they were. *)
Lemma addUser_dangling_code `{CaseMapping} (e code : jsstring) (w : world)
  (l : list WaitlistUser) :
  persisted (store w) = Some l ->
  find_index (has_email e) l = None ->
  find_index (has_code code) l = None ->
  latin1 e ->
  exists r w',
    addUser e (Some code) w = Returns {| user := r; error := None |} w' /\
    persisted (store w') = Some (l ++ [new_user e (Some code)]) /\
    heap w' !! r = Some (new_user e (Some code)).
Proof.
  intros Hs Hi _ He. destruct w as [s h]. cbn [store] in Hs.
  destruct (addUser_new e (Some code) s h l Hs Hi He) as (h' & Ha & Hu).
  do 2 eexists. split; [exact Ha|]. split; [apply persisted_saved|exact Hu].
Qed.

(** C10 (the code departs from the claim): with alice on the waitlist,
    registering an email that passes the check of the form and has a code
    unit above 255, under a referral code
    that no record has does not succeed: the call throws
    [InvalidCharacterError] out of [btoa] and the storage cell is left as
    it was. *)
Theorem dangling_code_register_fails :
  exists w',
    validateEmail lukasz_email = true /\
    @addUser latin1_case lukasz_email (Some (js "nobody")) (stored [alice])
    = Throws InvalidCharacterError w' /\
    @find_index WaitlistUser (has_code (js "nobody")) [alice] = None /\
    @find_index WaitlistUser (@has_email latin1_case lukasz_email) [alice]
    = None /\
    store w' = store (stored [alice]).
Proof.
  eexists. split; [vm_compute; reflexivity|].
  split; [vm_compute; reflexivity|].
  repeat split; vm_compute; reflexivity.
Qed.

(** ** The rank *)

Lemma byReferrals_le (x y : WaitlistUser) :
  (byReferrals x y <=? 0)%Z = true <->
  (getReferralCount y <= getReferralCount x)%nat.
Proof. unfold byReferrals. rewrite Z.leb_le. lia. Qed.

Lemma sort_insert_perm {A} (cmp : A -> A -> Z) (x : A) (l : list A) :
  sort_insert cmp x l ≡ₚ x :: l.
Proof.
  induction l as [|y l IH]; cbn; [reflexivity|].
  destruct (cmp x y <=? 0)%Z; [reflexivity|].
  rewrite IH. apply Permutation_swap.
Qed.

Lemma sort_perm {A} (cmp : A -> A -> Z) (l : list A) : sort cmp l ≡ₚ l.
Proof.
  induction l as [|x l IH]; [reflexivity|].
  cbn. rewrite sort_insert_perm, IH. reflexivity.
Qed.

Lemma sort_insert_sorted (x : WaitlistUser) (l : list WaitlistUser) :
  Sorted ranks_before l -> Sorted ranks_before (sort_insert byReferrals x l).
Proof.
  induction 1 as [|y l Hl IH Hy]; cbn.
  - repeat constructor.
  - destruct (byReferrals x y <=? 0)%Z eqn:E.
    + apply byReferrals_le in E. repeat constructor; assumption.
    + constructor; [exact IH|].
      assert (ranks_before y x) as Hyx.
      { unfold ranks_before. destruct (Nat.le_gt_cases
          (getReferralCount x) (getReferralCount y)) as [|Hgt]; [assumption|].
        assert ((byReferrals x y <=? 0)%Z = true); [|congruence].
        apply byReferrals_le. lia. }
      destruct Hy as [|z l Hz]; cbn.
      * constructor. exact Hyx.
      * destruct (byReferrals x z <=? 0)%Z; constructor; assumption.
Qed.

Lemma sort_sorted (l : list WaitlistUser) :
  Sorted ranks_before (sort byReferrals l).
Proof.
  induction l as [|x l IH]; cbn; [constructor|].
  apply sort_insert_sorted, IH.
Qed.

(** Stability: among the users with [n] referrals the order is kept. *)
Lemma sort_insert_stable (n : nat) (x : WaitlistUser) (l : list WaitlistUser) :
  filter (fun v => getReferralCount v = n) (sort_insert byReferrals x l) =
  filter (fun v => getReferralCount v = n) (x :: l).
Proof.
  induction l as [|y l IH]; cbn [sort_insert]; [reflexivity|].
  destruct (byReferrals x y <=? 0)%Z eqn:E; [reflexivity|].
  assert (getReferralCount x < getReferralCount y)%nat as Hlt.
  { destruct (Nat.le_gt_cases (getReferralCount y) (getReferralCount x))
      as [Hle|]; [|assumption].
    apply byReferrals_le in Hle. congruence. }
  rewrite (filter_cons _ y), IH, !(filter_cons _ x), (filter_cons _ y).
  repeat case_decide; try reflexivity; lia.
Qed.

Lemma sort_stable (n : nat) (l : list WaitlistUser) :
  filter (fun v => getReferralCount v = n) (sort byReferrals l) =
  filter (fun v => getReferralCount v = n) l.
Proof.
  induction l as [|x l IH]; [reflexivity|].
  cbn [sort foldr]. fold (sort byReferrals l).
  rewrite sort_insert_stable, !(filter_cons _ x), IH. reflexivity.
Qed.

Lemma ranks_before_trans : Transitive ranks_before.
Proof. unfold ranks_before. intros a b c Hab Hbc. lia. Qed.

Lemma filter_none {A} (P : A -> Prop) `{forall x, Decision (P x)}
  (l : list A) :
  Forall (fun x => ~ P x) l -> filter P l = [].
Proof.
  induction 1 as [|x l Hx _ IH]; [reflexivity|].
  rewrite filter_cons_False by assumption. exact IH.
Qed.

Lemma length_more_or_equal (n : nat) (l : list WaitlistUser) :
  Forall (fun v => n <= getReferralCount v)%nat l ->
  length l =
  (length (filter (fun v => n < getReferralCount v)%nat l)
   + length (filter (fun v => getReferralCount v = n) l))%nat.
Proof.
  induction 1 as [|x l Hx _ IH]; [reflexivity|].
  rewrite !(filter_cons _ x). repeat case_decide; cbn; lia.
Qed.

(** In a list without duplicates the part before an element is determined
    by the element. *)
Lemma NoDup_split_inj {A} (a a' b b' : list A) (x : A) :
  NoDup (a ++ x :: b) -> a ++ x :: b = a' ++ x :: b' -> a = a'.
Proof.
  revert a'. induction a as [|y a IH]; intros [|y' a'] Hnd E; cbn in *.
  - reflexivity.
  - injection E as <- ->. apply NoDup_cons in Hnd as [Hx _].
    destruct Hx. apply elem_of_app. right. left.
  - injection E as -> _. apply NoDup_cons in Hnd as [Hx _].
    destruct Hx. apply elem_of_app. right. left.
  - injection E as <- E. apply NoDup_cons in Hnd as [_ Hnd].
    f_equal. apply (IH a' Hnd E).
Qed.

(** The index of a user in the sorted waitlist, counted on the waitlist
    itself. *)
Lemma sorted_index_count (l : list WaitlistUser) (i : nat) (u : WaitlistUser) :
  NoDup l -> l !! i = Some u ->
  exists k, sort byReferrals l !! k = Some u /\ S k = rank_position l i u.
Proof.
  intros Hnd Hi.
  pose proof (sort_perm byReferrals l) as Hperm.
  pose proof (sort_stable (getReferralCount u) l) as Hstab.
  assert (StronglySorted ranks_before (sort byReferrals l)) as Hss
    by (apply Sorted_StronglySorted; [exact ranks_before_trans|apply sort_sorted]).
  set (s := sort byReferrals l) in *.
  assert (u ∈ s) as Hu by (rewrite Hperm; eapply list_elem_of_lookup_2, Hi).
  apply list_elem_of_lookup in Hu as [k Hk].
  exists k. split; [exact Hk|].
  apply list_elem_of_split_length in Hk as (s1 & s2 & Es & ->).
  rewrite Es in Hss. apply StronglySorted_app in Hss as (H12 & _ & H2).
  apply StronglySorted_cons in H2 as [H2 _].
  assert (Forall (fun v => getReferralCount u <= getReferralCount v)%nat s1)
    as Hs1.
  { apply Forall_forall. intros v Hv. apply (H12 v u Hv). left. }
  unfold rank_position. f_equal.
  rewrite (length_more_or_equal _ _ Hs1). f_equal.
  - rewrite <- Hperm, Es, filter_app, length_app.
    rewrite (filter_none _ (u :: s2)); [cbn; lia|].
    constructor; [lia|].
    eapply Forall_impl; [exact H2|]. unfold ranks_before. intros v Hv. lia.
  - f_equal.
    rewrite Es, <- (take_drop_middle l i u Hi), !filter_app in Hstab.
    rewrite !(filter_cons_True _ u) in Hstab by reflexivity.
    eapply NoDup_split_inj; [|exact Hstab].
    rewrite <- (filter_cons_True (fun v => getReferralCount v =
                                          getReferralCount u) u) by reflexivity.
    rewrite <- filter_app, <- Es.
    apply NoDup_filter. rewrite Hperm. exact Hnd.
Qed.

Lemma NoDup_email_inj (l : list WaitlistUser) (x y : WaitlistUser) :
  NoDup (map email l) -> x ∈ l -> y ∈ l -> email x = email y -> x = y.
Proof.
  induction l as [|z l IH]; cbn; intros Hnd Hx Hy E.
  - apply elem_of_nil in Hx as [].
  - apply NoDup_cons in Hnd as [Hz Hnd].
    apply elem_of_cons in Hx as [->|Hx]; apply elem_of_cons in Hy as [->|Hy].
    + reflexivity.
    + destruct Hz. rewrite E. apply (list_elem_of_fmap_2 email), Hy.
    + destruct Hz. rewrite <- E. apply (list_elem_of_fmap_2 email), Hx.
    + apply IH; assumption.
Qed.

Lemma unique_emails_NoDup `{CaseMapping} (l : list WaitlistUser) :
  unique_emails l -> NoDup (map email l).
Proof.
  unfold unique_emails. intros Hl. apply (NoDup_fmap_1 toLowerCase).
  rewrite <- list_fmap_compose. exact Hl.
Qed.

(** With distinct emails, [findIndex] by email finds the record itself. *)
Lemma find_index_email (l : list WaitlistUser) (k : nat) (u : WaitlistUser) :
  NoDup (map email l) -> l !! k = Some u ->
  find_index (fun v => str_eqb (email v) (email u)) l = Some k.
Proof.
  intros Hnd Hk. apply find_index_Some. exists u.
  split; [exact Hk|]. split; [apply bool_decide_eq_true; reflexivity|].
  intros j y Hj Hy. apply bool_decide_eq_false. intros E.
  assert (y = u) as ->.
  { apply (NoDup_email_inj l); [assumption| | |assumption];
      eapply list_elem_of_lookup_2; eassumption. }
  apply NoDup_fmap_1 in Hnd.
  pose proof (NoDup_lookup _ _ _ _ Hnd Hy Hk). lia.
Qed.

(** C4: on a waitlist with one record per lowercase email, the rank of the
    user at index [i] is its 1-based position in the waitlist sorted by
    referral count, largest first, users with equal counts in signup
    order: the sorted list is a rearrangement of the waitlist, each
    record in it has at least as many referrals as the next, the users
    with any given count appear in their waitlist order, and the rank is
    one more than the number of users with more referrals plus the number
    of earlier users with as many. *)
Theorem getUserRank_position `{CaseMapping} (w : world)
  (l : list WaitlistUser) (i : nat) (u : WaitlistUser) :
  persisted (store w) = Some l ->
  unique_emails l ->
  l !! i = Some u ->
  exists k w',
    getUserRank u w = Returns (Z.of_nat (S k)) w' /\
    store w' = store w /\
    sort byReferrals l !! k = Some u /\
    S k = rank_position l i u /\
    sort byReferrals l ≡ₚ l /\
    Sorted ranks_before (sort byReferrals l) /\
    forall n, filter (fun v => getReferralCount v = n) (sort byReferrals l)
              = filter (fun v => getReferralCount v = n) l.
Proof.
  intros Hs Hl Hi. destruct w as [s h]. cbn [store] in Hs.
  apply unique_emails_NoDup in Hl.
  destruct (sorted_index_count l i u (NoDup_fmap_1 _ _ Hl) Hi)
    as (k & Hk & Hrank).
  exists k, {| store := s; heap := h ++ l |}. split; [|split; [reflexivity|]].
  - rewrite (getUserRank_eq u s h l Hs). unfold findIndex.
    rewrite (find_index_email _ k u); [f_equal; lia| |exact Hk].
    rewrite (sort_perm byReferrals l). exact Hl.
  - split; [exact Hk|]. split; [exact Hrank|].
    split; [apply sort_perm|]. split; [apply sort_sorted|].
    intros n. apply sort_stable.
Qed.

Lemma getUserRank_position_witness :
  exists k w',
    getUserRank bob (stored three_users) = Returns (Z.of_nat (S k)) w' /\
    store w' = store (stored three_users) /\
    sort byReferrals three_users !! k = Some bob /\
    S k = rank_position three_users 2 bob /\
    sort byReferrals three_users ≡ₚ three_users /\
    Sorted ranks_before (sort byReferrals three_users) /\
    forall n, filter (fun v => getReferralCount v = n)
                     (sort byReferrals three_users)
              = filter (fun v => getReferralCount v = n) three_users.
Proof.
  apply (@getUserRank_position latin1_case (stored three_users)
           three_users 2 bob).
  - vm_compute. reflexivity.
  - apply (bool_decide_unpack _). vm_compute. exact I.
  - reflexivity.
Defined.

Example rank_of_bob :
  exists w', getUserRank bob (stored three_users) = Returns 3%Z w'.
Proof. eexists. vm_compute. reflexivity. Qed.

Example rank_of_carol :
  exists w', getUserRank carol (stored three_users) = Returns 1%Z w'.
Proof. eexists. vm_compute. reflexivity. Qed.

(** ** Further properties of the store *)

(** *** The check of the form *)

Lemma split_at_Some (s a b : jsstring) :
  split_at s = Some (a, b) <-> s = a ++ 64 :: b /\ Forall (fun c => c <> 64) a.
Proof.
  revert a. induction s as [|c t IH]; intros a; cbn.
  - split; [discriminate|]. intros [E _]. destruct a; discriminate.
  - destruct (N.eqb_spec c 64) as [->|Hc].
    + split.
      * intros [= <- <-]. split; [reflexivity|constructor].
      * intros [E Ha]. destruct a as [|c' a]; [injection E as <-; reflexivity|].
        injection E as <- _. apply Forall_cons in Ha as [Hc _]. contradiction.
    + rewrite bind_Some. split.
      * intros ([a' b'] & Et & [= <- <-]). apply IH in Et as [-> Ha'].
        split; [reflexivity|]. constructor; assumption.
      * intros [E Ha].
        destruct a as [|c' a]; [injection E as -> _; contradiction|].
        injection E as <- E. apply Forall_cons in Ha as [_ Ha].
        exists (a, b). split; [apply IH; auto|reflexivity].
Qed.

Lemma inner_dot (b : jsstring) :
  existsb (fun c => c =? 46) (removelast (tail b)) = true <->
  exists x y, x <> [] /\ y <> [] /\ b = x ++ 46 :: y.
Proof.
  split.
  - intros Hex. apply existsb_exists in Hex as (d & Hd & Ed).
    apply N.eqb_eq in Ed. subst d.
    destruct b as [|c t]; [destruct Hd|]. cbn [tail] in Hd.
    destruct (decide (t = [])) as [->|Ht]; [destruct Hd|].
    destruct (exists_last Ht) as (m & z & ->).
    rewrite removelast_last in Hd.
    apply in_split in Hd as (m1 & m2 & ->).
    exists (c :: m1), (m2 ++ [z]). split; [discriminate|].
    split; [destruct m2; discriminate|].
    cbn. rewrite <- app_assoc. reflexivity.
  - intros (x & y & Hx & Hy & ->).
    destruct x as [|c x]; [contradiction|]. cbn [app tail].
    destruct (exists_last Hy) as (y' & z & ->).
    replace (x ++ 46 :: y' ++ [z]) with ((x ++ 46 :: y') ++ [z])
      by (rewrite <- app_assoc; reflexivity).
    rewrite removelast_last. apply existsb_exists. exists 46.
    split; [apply in_elt|reflexivity].
Qed.

Lemma forallb_plain (s : jsstring) :
  forallb plain s = true <-> Forall (fun c => plain c = true) s.
Proof.
  rewrite forallb_forall, Forall_forall.
  split; intros Hs c Hc; apply Hs, list_elem_of_In, Hc.
Qed.

(** X1: [validateEmail] accepts exactly the texts of the pattern: a part
    before an [@], a part between the [@] and a dot, and a part after the
    dot, each of them non-empty and free of white space and [@]. *)
Theorem validateEmail_spec (s : jsstring) :
  validateEmail s = true <->
  exists a x y,
    s = a ++ 64 :: x ++ 46 :: y /\
    a <> [] /\ x <> [] /\ y <> [] /\
    Forall (fun c => plain c = true) a /\
    Forall (fun c => plain c = true) x /\
    Forall (fun c => plain c = true) y.
Proof.
  unfold validateEmail. split.
  - destruct (split_at s) as [[a b]|] eqn:Es; [|discriminate].
    apply split_at_Some in Es as [-> _].
    rewrite !andb_true_iff. intros [[[Ha Pa] Pb] Hdot].
    apply inner_dot in Hdot as (x & y & Hx & Hy & ->).
    apply forallb_plain in Pa, Pb.
    apply Forall_app in Pb as [Px Py]. apply Forall_cons in Py as [_ Py].
    exists a, x, y. repeat split; auto.
    destruct a; [discriminate|discriminate].
  - intros (a & x & y & -> & Ha & Hx & Hy & Pa & Px & Py).
    assert (split_at (a ++ 64 :: x ++ 46 :: y) = Some (a, x ++ 46 :: y)) as ->.
    { apply split_at_Some. split; [reflexivity|].
      eapply Forall_impl; [exact Pa|]. intros c Hc ->. discriminate Hc. }
    rewrite !andb_true_iff. repeat split.
    + destruct a; [contradiction|reflexivity].
    + apply forallb_plain, Pa.
    + apply forallb_plain, Forall_app. split; [exact Px|].
      constructor; [reflexivity|exact Py].
    + apply inner_dot. exists x, y. auto.
Qed.

(** *** Lookups *)

Lemma find_index_split {A} (p : A -> bool) (l : list A) (i : nat) :
  find_index p l = Some i ->
  exists l1 x l2,
    l = l1 ++ x :: l2 /\ length l1 = i /\
    Forall (fun y => p y = false) l1 /\ p x = true.
Proof.
  intros E. apply find_index_Some in E as (x & Hx & Px & Hlt).
  apply list_elem_of_split_length in Hx as (l1 & l2 & -> & ->).
  exists l1, x, l2. repeat split; auto.
  apply Forall_forall. intros y Hy.
  apply list_elem_of_lookup in Hy as [j Hj].
  apply (Hlt j); [eapply lookup_lt_Some, Hj|].
  apply lookup_app_l_Some, Hj.
Qed.

(** X2: [findUserByEmail] leaves the storage cell as it was; it returns
    [undefined] exactly when no record has the email, compared without
    case, and otherwise an object made by this call (it was not in the
    heap before) that holds the first record with the email. *)
Theorem findUserByEmail_spec `{CaseMapping} (e : jsstring) (w : world)
  (l : list WaitlistUser) :
  persisted (store w) = Some l ->
  exists found w',
    findUserByEmail e w = Returns found w' /\
    store w' = store w /\
    match found with
    | None => Forall (fun v => ~ same_email (email v) e) l
    | Some r =>
        exists l1 u l2,
          l = l1 ++ u :: l2 /\
          Forall (fun v => ~ same_email (email v) e) l1 /\
          same_email (email u) e /\
          heap w' !! r = Some u /\ (length (heap w) <= r)%nat
    end.
Proof.
  intros Hs. destruct w as [s h]. cbn [store heap] in *.
  do 2 eexists. split; [apply (findUserByEmail_eq e s h l Hs)|].
  split; [reflexivity|].
  destruct (find_index (has_email e) l) as [i|] eqn:Hi; cbn.
  - apply find_index_split in Hi as (l1 & u & l2 & -> & <- & Hl1 & Hu).
    exists l1, u, l2. split; [reflexivity|].
    split; [eapply Forall_impl; [exact Hl1|]; intros v; apply has_email_false|].
    split; [apply has_email_true, Hu|]. split; [|lia].
    rewrite lookup_app_r by lia.
    replace (_ - _)%nat with (length l1) by lia.
    apply list_lookup_middle. reflexivity.
  - apply find_index_None in Hi.
    eapply Forall_impl; [exact Hi|]. intros v. apply has_email_false.
Qed.

Lemma findUserByEmail_spec_witness :
  exists found w',
    @findUserByEmail latin1_case (js "ALICE@X.COM") (stored [alice; bob])
    = Returns found w' /\
    store w' = store (stored [alice; bob]) /\
    match found with
    | None => Forall (fun v => ~ @same_email latin1_case (email v)
                                   (js "ALICE@X.COM")) [alice; bob]
    | Some r =>
        exists l1 u l2,
          [alice; bob] = l1 ++ u :: l2 /\
          Forall (fun v => ~ @same_email latin1_case (email v)
                             (js "ALICE@X.COM")) l1 /\
          @same_email latin1_case (email u) (js "ALICE@X.COM") /\
          heap w' !! r = Some u /\
          (length (heap (stored [alice; bob])) <= r)%nat
    end.
Proof.
  apply (@findUserByEmail_spec latin1_case (js "ALICE@X.COM")
           (stored [alice; bob]) [alice; bob]).
  vm_compute. reflexivity.
Defined.

Lemma has_code_true (c : jsstring) (u : WaitlistUser) :
  has_code c u = true <-> referralCode u = c.
Proof. unfold has_code, str_eqb. apply bool_decide_eq_true. Qed.

Lemma has_code_false (c : jsstring) (u : WaitlistUser) :
  has_code c u = false <-> referralCode u <> c.
Proof. unfold has_code, str_eqb. apply bool_decide_eq_false. Qed.

(** X3: [findUserByCode] leaves the storage cell as it was; it returns
    [undefined] exactly when no record has the code, compared exactly, and
    otherwise an object made by this call that holds the first record with
    the code. *)
Theorem findUserByCode_spec (c : jsstring) (w : world)
  (l : list WaitlistUser) :
  persisted (store w) = Some l ->
  exists found w',
    findUserByCode c w = Returns found w' /\
    store w' = store w /\
    match found with
    | None => Forall (fun v => referralCode v <> c) l
    | Some r =>
        exists l1 u l2,
          l = l1 ++ u :: l2 /\
          Forall (fun v => referralCode v <> c) l1 /\
          referralCode u = c /\
          heap w' !! r = Some u /\ (length (heap w) <= r)%nat
    end.
Proof.
  intros Hs. destruct w as [s h]. cbn [store heap] in *.
  do 2 eexists. split; [apply (findUserByCode_eq c s h l Hs)|].
  split; [reflexivity|].
  destruct (find_index (has_code c) l) as [i|] eqn:Hi; cbn.
  - apply find_index_split in Hi as (l1 & u & l2 & -> & <- & Hl1 & Hu).
    exists l1, u, l2. split; [reflexivity|].
    split; [eapply Forall_impl; [exact Hl1|]; intros v; apply has_code_false|].
    split; [apply has_code_true, Hu|]. split; [|lia].
    rewrite lookup_app_r by lia.
    replace (_ - _)%nat with (length l1) by lia.
    apply list_lookup_middle. reflexivity.
  - apply find_index_None in Hi.
    eapply Forall_impl; [exact Hi|]. intros v. apply has_code_false.
Qed.

Lemma findUserByCode_spec_witness :
  exists found w',
    findUserByCode (referralCode bob) (stored [alice; bob])
    = Returns found w' /\
    store w' = store (stored [alice; bob]) /\
    match found with
    | None => Forall (fun v => referralCode v <> referralCode bob) [alice; bob]
    | Some r =>
        exists l1 u l2,
          [alice; bob] = l1 ++ u :: l2 /\
          Forall (fun v => referralCode v <> referralCode bob) l1 /\
          referralCode u = referralCode bob /\
          heap w' !! r = Some u /\
          (length (heap (stored [alice; bob])) <= r)%nat
    end.
Proof.
  apply (findUserByCode_spec (referralCode bob) (stored [alice; bob])
           [alice; bob]).
  vm_compute. reflexivity.
Defined.

(** *** Registration *)

(** The two ways [addUser] returns. *)
Lemma addUser_Returns_inv `{CaseMapping} (e : jsstring) (c : option jsstring)
  (s : option blob) (h l : list WaitlistUser) (res : AddResult) (w' : world) :
  persisted s = Some l ->
  addUser e c {| store := s; heap := h |} = Returns res w' ->
  (exists i, find_index (has_email e) l = Some i /\ store w' = s /\
             error res = Some already_on_waitlist)
  \/ (find_index (has_email e) l = None /\ latin1 e /\
      store w' = Some (Parseable (waitlist_to_json (l ++ [new_user e c]))) /\
      error res = None /\ heap w' !! user res = Some (new_user e c)).
Proof.
  intros Hs Ha.
  destruct (find_index (has_email e) l) as [i|] eqn:Hi.
  - left. rewrite (addUser_existing _ _ _ _ _ _ Hs Hi) in Ha.
    injection Ha as <- <-. exists i. auto.
  - right. destruct (latin1_dec e) as [He|He].
    + destruct (addUser_new e c s h l Hs Hi He) as (h' & Ha' & Hu).
      rewrite Ha' in Ha. injection Ha as <- <-. auto.
    + rewrite (addUser_throws _ _ _ _ _ Hs Hi He) in Ha. discriminate Ha.
Qed.

(** X4: a second [addUser] with an email that a first call returned for,
    whatever the referral codes, returns the error of an email that is
    already on the waitlist together with a record of that email, and
    leaves the storage cell as the first call left it. *)
Theorem addUser_twice `{CaseMapping} (e : jsstring) (c c' : option jsstring)
  (w w1 : world) (l : list WaitlistUser) (res : AddResult) :
  persisted (store w) = Some l ->
  addUser e c w = Returns res w1 ->
  exists r w2 u,
    addUser e c' w1
    = Returns {| user := r; error := Some already_on_waitlist |} w2 /\
    store w2 = store w1 /\
    heap w2 !! r = Some u /\ same_email (email u) e.
Proof.
  intros Hs Ha. destruct w as [s h]. cbn [store] in Hs.
  assert (exists l1 i, persisted (store w1) = Some l1 /\
                       find_index (has_email e) l1 = Some i)
    as (l1 & i & Hs1 & Hi1).
  { destruct (addUser_Returns_inv e c s h l res w1 Hs Ha)
      as [(i & Hi & -> & _)|(Hi & He & -> & _)].
    - exists l, i. auto.
    - exists (l ++ [new_user e c]), (length l).
      split; [apply persisted_saved|].
      apply find_index_first; [apply find_index_None, Hi|].
      apply has_email_true. reflexivity. }
  destruct w1 as [s1 h1]. cbn [store] in *.
  pose proof (find_index_lt _ _ _ Hi1) as Hlt.
  pose proof Hi1 as Hi1'. apply find_index_Some in Hi1' as (u & Hu & Pu & _).
  do 2 eexists. exists u.
  split; [apply (addUser_existing e c' s1 h1 l1 i Hs1 Hi1)|].
  split; [reflexivity|]. split; [|apply has_email_true, Pu].
  cbn [heap]. rewrite lookup_app_r by lia.
  replace (_ - _)%nat with i by lia. exact Hu.
Qed.

Lemma addUser_twice_witness :
  exists r w2 u,
    @addUser latin1_case bob_email (Some (js "other")) after_bob
    = Returns {| user := r; error := Some already_on_waitlist |} w2 /\
    store w2 = store after_bob /\
    heap w2 !! r = Some u /\ @same_email latin1_case (email u) bob_email.
Proof.
  apply (@addUser_twice latin1_case bob_email (Some (referralCode alice))
           (Some (js "other")) (stored [alice]) after_bob [alice]
           {| user := 2; error := None |});
    vm_compute; reflexivity.
Defined.

(** *** The waitlists the page brings about *)

Lemma code_inj (e1 e2 c : jsstring) :
  generateReferralCode e1 = Normal c -> generateReferralCode e2 = Normal c ->
  e1 = e2.
Proof.
  intros H1 H2.
  apply generateReferralCode_Normal in H1 as [L1 ->].
  apply generateReferralCode_Normal in H2 as [L2 E].
  pose proof (decode_base64 e1 L1) as D1.
  pose proof (decode_base64 e2 L2) as D2.
  rewrite E in D1. congruence.
Qed.

Lemma reachable_as_created `{CaseMapping} (s : option blob) :
  reachable s ->
  exists l, persisted s = Some l /\ unique_emails l /\ Forall as_created l.
Proof.
  induction 1 as [|s h e c res w' _ (l & Hs & Hl & Hc) Ha].
  - exists []. split; [reflexivity|].
    split; [apply NoDup_nil; exact I|constructor].
  - destruct (addUser_Returns_inv e c s h l res w' Hs Ha)
      as [(i & Hi & -> & _)|(Hi & He & -> & _)].
    + exists l. auto.
    + exists (l ++ [new_user e c]). split; [apply persisted_saved|].
      split; [apply unique_emails_snoc; assumption|].
      apply Forall_app. split; [exact Hc|]. constructor; [|constructor].
      split; [reflexivity|]. apply generateReferralCode_latin1, He.
Qed.

(** X5: every storage cell the page can bring about, from no item and
    through [addUser], holds a waitlist with one record per lowercase
    email in which every record has an empty list of referrals and the
    referral code derived from its email. *)
Theorem reachable_records `{CaseMapping} (s : option blob) :
  reachable s ->
  exists l, persisted s = Some l /\ unique_emails l /\ Forall as_created l.
Proof. apply reachable_as_created. Qed.


Lemma reachable_after_bob : @reachable latin1_case (store after_bob).
Proof.
  apply (@reach_addUser latin1_case (store (stored [alice])) [] bob_email
           (Some (referralCode alice)) {| user := 2; error := None |}
           after_bob).
  - apply (@reach_addUser latin1_case None [] (js "alice@x.com") None
             {| user := 0; error := None |}
             {| store := store (stored [alice]); heap := [alice] |}).
    + apply reach_start.
    + vm_compute. reflexivity.
  - vm_compute. reflexivity.
Defined.

Lemma reachable_records_witness :
  exists l, persisted (store after_bob) = Some l /\
            @unique_emails latin1_case l /\ Forall as_created l.
Proof.
  apply (@reachable_records latin1_case (store after_bob)).
  exact reachable_after_bob.
Defined.

Lemma sort_no_referrals (l : list WaitlistUser) :
  Forall (fun u => referrals u = []) l -> sort byReferrals l = l.
Proof.
  induction 1 as [|x l Hx Hl IH]; [reflexivity|].
  cbn [sort foldr]. fold (sort byReferrals l). rewrite IH.
  destruct Hl as [|y l Hy _]; [reflexivity|].
  cbn [sort_insert]. unfold byReferrals, getReferralCount.
  rewrite Hx, Hy. reflexivity.
Qed.

(** X6: on every waitlist the page can bring about, the rank of a user is
    the user's signup position: the user at index [i] has rank [i + 1]. *)
Theorem reachable_rank_is_position `{CaseMapping} (w : world)
  (l : list WaitlistUser) (i : nat) (u : WaitlistUser) :
  reachable (store w) ->
  persisted (store w) = Some l ->
  l !! i = Some u ->
  exists w', getUserRank u w = Returns (Z.of_nat (S i)) w' /\
             store w' = store w.
Proof.
  intros Hr Hs Hi. destruct w as [s h]. cbn [store] in *.
  destruct (reachable_as_created s Hr) as (l' & Hs' & Hl & Hc).
  assert (l' = l) as -> by congruence.
  exists {| store := s; heap := h ++ l |}. split; [|reflexivity].
  rewrite (getUserRank_eq u s h l Hs). unfold findIndex.
  rewrite sort_no_referrals
    by (eapply Forall_impl; [exact Hc|]; intros v [Hv _]; exact Hv).
  rewrite (find_index_email l i u (unique_emails_NoDup l Hl) Hi).
  f_equal. lia.
Qed.

Lemma reachable_rank_is_position_witness :
  exists w', getUserRank bob after_bob = Returns (Z.of_nat 2) w' /\
             store w' = store after_bob.
Proof.
  apply (@reachable_rank_is_position latin1_case after_bob [alice; bob] 1 bob).
  - exact reachable_after_bob.
  - vm_compute. reflexivity.
  - reflexivity.
Defined.

(** X7: on every waitlist the page can bring about, looking up the
    referral code of a record finds that record: distinct records have
    distinct codes. *)
Theorem reachable_code_lookup `{CaseMapping} (w : world)
  (l : list WaitlistUser) (i : nat) (u : WaitlistUser) :
  reachable (store w) ->
  persisted (store w) = Some l ->
  l !! i = Some u ->
  exists r w',
    findUserByCode (referralCode u) w = Returns (Some r) w' /\
    heap w' !! r = Some u /\
    forall j v, l !! j = Some v -> referralCode v = referralCode u -> j = i.
Proof.
  intros Hr Hs Hi. destruct w as [s h]. cbn [store] in *.
  destruct (reachable_as_created s Hr) as (l' & Hs' & Hl & Hc).
  assert (l' = l) as -> by congruence.
  apply unique_emails_NoDup in Hl.
  assert (forall j v, l !! j = Some v -> referralCode v = referralCode u ->
                      j = i) as Hinj.
  { intros j v Hj E. rewrite Forall_forall in Hc.
    destruct (Hc v (list_elem_of_lookup_2 _ _ _ Hj)) as [_ Cv].
    destruct (Hc u (list_elem_of_lookup_2 _ _ _ Hi)) as [_ Cu].
    rewrite E in Cv. pose proof (code_inj _ _ _ Cv Cu) as Ee.
    assert (map email l !! j = Some (email v)) as Hj'
      by (rewrite list_lookup_fmap, Hj; reflexivity).
    assert (map email l !! i = Some (email u)) as Hi'
      by (rewrite list_lookup_fmap, Hi; reflexivity).
    rewrite Ee in Hj'. apply (NoDup_lookup _ _ _ _ Hl Hj' Hi'). }
  assert (find_index (has_code (referralCode u)) l = Some i) as Hf.
  { apply find_index_Some. exists u. split; [exact Hi|].
    split; [apply has_code_true; reflexivity|].
    intros j y Hj Hy. apply has_code_false. intros E.
    specialize (Hinj j y Hy E). lia. }
  do 2 eexists. split; [rewrite (findUserByCode_eq _ s h l Hs), Hf; reflexivity|].
  split; [|exact Hinj]. cbn [heap].
  rewrite lookup_app_r by lia.
  replace (_ - _)%nat with i by lia. exact Hi.
Qed.

Lemma reachable_code_lookup_witness :
  exists r w',
    findUserByCode (referralCode bob) after_bob = Returns (Some r) w' /\
    heap w' !! r = Some bob /\
    forall j v, [alice; bob] !! j = Some v ->
                referralCode v = referralCode bob -> j = 1%nat.
Proof.
  apply (@reachable_code_lookup latin1_case after_bob [alice; bob] 1 bob).
  - exact reachable_after_bob.
  - vm_compute. reflexivity.
  - reflexivity.
Defined.

(** *** The rank *)

Lemma find_index_perm_None {A} (p : A -> bool) (l l' : list A) :
  l ≡ₚ l' -> find_index p l = None -> find_index p l' = None.
Proof.
  intros Hp Hn. apply find_index_None. apply find_index_None in Hn.
  rewrite <- Hp. exact Hn.
Qed.

(** X8: [getUserRank] leaves the storage cell as it was and returns a
    number from 0 to the size of the waitlist; it returns 0 exactly when
    no record has the email of the user, compared exactly. *)
Theorem getUserRank_range (u : WaitlistUser) (w : world)
  (l : list WaitlistUser) :
  persisted (store w) = Some l ->
  exists k w',
    getUserRank u w = Returns k w' /\ store w' = store w /\
    (0 <= k <= Z.of_nat (length l))%Z /\
    (k = 0%Z <-> Forall (fun v => email v <> email u) l).
Proof.
  intros Hs. destruct w as [s h]. cbn [store] in *.
  do 2 eexists. split; [apply (getUserRank_eq u s h l Hs)|].
  split; [reflexivity|]. unfold findIndex.
  pose proof (sort_perm byReferrals l) as Hperm.
  destruct (find_index _ (sort byReferrals l)) as [k|] eqn:Hk.
  - pose proof (find_index_lt _ _ _ Hk) as Hlt.
    rewrite (Permutation_length Hperm) in Hlt.
    split; [lia|]. split; [lia|]. intros Hall. exfalso.
    apply find_index_Some in Hk as (v & Hv & Pv & _).
    apply bool_decide_eq_true in Pv.
    apply list_elem_of_lookup_2 in Hv. rewrite Hperm in Hv.
    rewrite Forall_forall in Hall. apply (Hall v Hv Pv).
  - split; [lia|]. split; [|reflexivity]. intros _.
    apply find_index_None in Hk. rewrite Hperm in Hk.
    eapply Forall_impl; [exact Hk|]. intros v Hv.
    apply bool_decide_eq_false in Hv. exact Hv.
Qed.

Lemma getUserRank_range_witness :
  exists k w',
    getUserRank carol (stored [alice; bob]) = Returns k w' /\
    store w' = store (stored [alice; bob]) /\
    (0 <= k <= Z.of_nat (length [alice; bob]))%Z /\
    (k = 0%Z <-> Forall (fun v => email v <> email carol) [alice; bob]).
Proof.
  apply (getUserRank_range carol (stored [alice; bob]) [alice; bob]).
  vm_compute. reflexivity.
Defined.

Lemma sort_insert_snoc (x n : WaitlistUser) (s : list WaitlistUser) :
  referrals n = [] ->
  sort_insert byReferrals x (s ++ [n]) = sort_insert byReferrals x s ++ [n].
Proof.
  intros Hn. induction s as [|y s IH]; cbn [app sort_insert].
  - replace (byReferrals x n <=? 0)%Z with true; [reflexivity|].
    symmetry. apply byReferrals_le. unfold getReferralCount.
    rewrite Hn. cbn. lia.
  - destruct (byReferrals x y <=? 0)%Z; [reflexivity|].
    rewrite IH. reflexivity.
Qed.

Lemma sort_snoc (n : WaitlistUser) (l : list WaitlistUser) :
  referrals n = [] ->
  sort byReferrals (l ++ [n]) = sort byReferrals l ++ [n].
Proof.
  intros Hn. induction l as [|x l IH]; [reflexivity|].
  cbn [app sort foldr]. fold (sort byReferrals (l ++ [n])).
  fold (sort byReferrals l). rewrite IH. apply sort_insert_snoc, Hn.
Qed.

Lemma renderTotal_eq (s : option blob) (h l : list WaitlistUser) :
  persisted s = Some l ->
  renderTotal {| store := s; heap := h |} =
  Returns (length l) {| store := s; heap := h ++ l |}.
Proof.
  intros Hs. unfold renderTotal.
  erewrite bind_Returns by (apply users_eq, Hs). cbv beta.
  rewrite length_seq. reflexivity.
Qed.

(** X9: a user who has just been added ranks last: after an [addUser]
    that returns without error on a waitlist of [n] records, the rank of
    the new user and the total shown beside it are both [n + 1]. *)
Theorem new_member_ranks_last `{CaseMapping} (e : jsstring)
  (c : option jsstring) (w w1 : world) (l : list WaitlistUser)
  (res : AddResult) :
  persisted (store w) = Some l ->
  addUser e c w = Returns res w1 ->
  error res = None ->
  exists u w2 w3,
    heap w1 !! user res = Some u /\
    getUserRank u w1 = Returns (Z.of_nat (S (length l))) w2 /\
    renderTotal w1 = Returns (S (length l)) w3.
Proof.
  intros Hs Ha Hres. destruct w as [s h]. cbn [store] in Hs.
  destruct (addUser_Returns_inv e c s h l res w1 Hs Ha)
    as [(i & _ & _ & Herr)|(Hi & He & Hs1 & _ & Hu)]; [congruence|].
  destruct w1 as [s1 h1]. cbn [store heap] in *. subst s1.
  exists (new_user e c). do 2 eexists. split; [exact Hu|]. split.
  - rewrite (getUserRank_eq _ _ h1 _ (persisted_saved _)).
    rewrite sort_snoc by reflexivity. unfold findIndex.
    rewrite find_index_first.
    + rewrite (Permutation_length (sort_perm byReferrals l)).
      f_equal. lia.
    + apply find_index_None in Hi.
      rewrite (sort_perm byReferrals l).
      eapply Forall_impl; [exact Hi|]. intros v Hv.
      apply has_email_false in Hv. apply bool_decide_eq_false.
      intros E. apply Hv. unfold same_email. cbn in E. rewrite E. reflexivity.
    + apply bool_decide_eq_true. reflexivity.
  - rewrite (renderTotal_eq _ h1 _ (persisted_saved _)).
    rewrite length_app. cbn. f_equal. lia.
Qed.

Lemma new_member_ranks_last_witness :
  exists u w2 w3,
    heap after_bob !! user {| user := 2; error := None |} = Some u /\
    getUserRank u after_bob = Returns (Z.of_nat (S (length [alice]))) w2 /\
    renderTotal after_bob = Returns (S (length [alice])) w3.
Proof.
  apply (@new_member_ranks_last latin1_case bob_email
           (Some (referralCode alice)) (stored [alice]) after_bob [alice]
           {| user := 2; error := None |});
    vm_compute; reflexivity.
Defined.

(** *** The shape of a referral code *)

Lemma b64char_code_char (i : N) : code_char (b64char i).
Proof.
  unfold code_char, b64char.
  destruct (N.ltb_spec i 26); [lia|].
  destruct (N.ltb_spec i 52); [lia|].
  destruct (N.ltb_spec i 62); [lia|].
  destruct (N.eqb_spec i 62); lia.
Qed.

Lemma unpadded_shape (e : jsstring) :
  Forall code_char (stripPadding (base64 e)) /\
  (4 * length e <= 3 * length (stripPadding (base64 e)) < 4 * length e + 3)%nat.
Proof.
  induction e as [|a|a b|a b c e [IH1 IH2]] using list_ind3.
  - split; [constructor|cbn; lia].
  - cbn [base64]. rewrite !stripPadding_b64char.
    change (stripPadding [pad; pad]) with (@nil N).
    split; [repeat (constructor; [apply b64char_code_char|]); constructor
           |cbn; lia].
  - cbn [base64]. rewrite !stripPadding_b64char.
    change (stripPadding [pad]) with (@nil N).
    split; [repeat (constructor; [apply b64char_code_char|]); constructor
           |cbn; lia].
  - cbn [base64]. rewrite !stripPadding_b64char.
    split; [repeat (constructor; [apply b64char_code_char|]); exact IH1|].
    cbn [length]. lia.
Qed.

(** X10: the referral code of an email of [n] code units below 256 has
    the smallest number of characters that is at least [4n/3], and each
    of them is a letter, a digit, [+] or [/]: it has no [=], no white
    space and none of [&], [#], [%], [?]. *)
Theorem referral_code_shape (e : jsstring) :
  latin1 e ->
  exists c,
    generateReferralCode e = Normal c /\
    Forall code_char c /\
    (4 * length e <= 3 * length c < 4 * length e + 3)%nat.
Proof.
  intros He. exists (stripPadding (base64 e)).
  split; [apply generateReferralCode_latin1, He|apply unpadded_shape].
Qed.

Lemma referral_code_shape_witness :
  exists c,
    generateReferralCode (js "alice@x.com") = Normal c /\
    Forall code_char c /\
    (4 * length (js "alice@x.com") <= 3 * length c
     < 4 * length (js "alice@x.com") + 3)%nat.
Proof.
  apply (referral_code_shape (js "alice@x.com")).
  unfold latin1. repeat constructor; vm_compute; discriminate.
Defined.

(** *** Saving and reading back *)

(** X11: what [saveWaitlist] writes, [getWaitlist] reads back as records
    with the same fields in objects that are new: none of them is an
    object that existed before, and the objects that were saved are still
    there unchanged. *)
Theorem saveWaitlist_then_getWaitlist (w : world) (users : list ref)
  (us : list WaitlistUser) :
  points_to (heap w) users us ->
  exists w1 w2 fresh,
    saveWaitlist users w = Returns tt w1 /\
    getWaitlist w1 = Returns (VUsers fresh) w2 /\
    store w2 = store w1 /\
    points_to (heap w2) fresh us /\
    Forall (fun r => length (heap w) <= r)%nat fresh /\
    points_to (heap w2) users us.
Proof.
  intros Hp. destruct w as [s h]. cbn [heap] in *.
  exists {| store := Some (Parseable (waitlist_to_json us)); heap := h |},
         {| store := Some (Parseable (waitlist_to_json us)); heap := h ++ us |},
         (seq (length h) (length us)).
  split; [apply saveWaitlist_eq, Hp|].
  split.
  { unfold getWaitlist, mbind, M_bind, getItem. cbn [store].
    rewrite json_to_waitlist_to_json, allocAll_eq. reflexivity. }
  split; [reflexivity|]. cbn [heap].
  split; [apply points_to_alloc|].
  split; [apply Forall_forall; intros r Hr; apply elem_of_seq in Hr; lia|].
  apply points_to_extend, Hp.
Qed.

Lemma saveWaitlist_then_getWaitlist_witness :
  exists w1 w2 fresh,
    saveWaitlist [1; 0]%nat {| store := None; heap := [alice; carol] |}
    = Returns tt w1 /\
    getWaitlist w1 = Returns (VUsers fresh) w2 /\
    store w2 = store w1 /\
    points_to (heap w2) fresh [carol; alice] /\
    Forall (fun r => length [alice; carol] <= r)%nat fresh /\
    points_to (heap w2) [1; 0]%nat [carol; alice].
Proof.
  apply (saveWaitlist_then_getWaitlist
           {| store := None; heap := [alice; carol] |} [1; 0]%nat
           [carol; alice]).
  repeat constructor.
Defined.

(** ** Properties of the page *)

Lemma already_on_waitlist_cons :
  exists c t, already_on_waitlist = c :: t.
Proof. do 2 eexists. vm_compute. reflexivity. Qed.

Lemma find_index_Exists `{CaseMapping} (e : jsstring) (l : list WaitlistUser) :
  Exists (fun v => same_email (email v) e) l ->
  exists i, find_index (has_email e) l = Some i.
Proof.
  intros Hex. destruct (find_index (has_email e) l) as [i|] eqn:Hi; [eauto|].
  apply find_index_None in Hi. apply Exists_exists in Hex as (v & Hv & Sv).
  rewrite Forall_forall in Hi. apply Hi, has_email_false in Hv. contradiction.
Qed.

Lemma find_index_Forall `{CaseMapping} (e : jsstring) (l : list WaitlistUser) :
  Forall (fun v => ~ same_email (email v) e) l ->
  find_index (has_email e) l = None.
Proof.
  intros Hall. apply find_index_None.
  eapply Forall_impl; [exact Hall|]. intros v. apply has_email_false.
Qed.

(** X12: a submission that is turned down, because the email fails the
    check of the form or because it is on the waitlist already (compared
    without case), shows the message of its case and changes nothing else
    that lasts: both items of the storage, the step shown and the current
    user stay as they were. *)
Theorem submit_rejected `{CaseMapping} (p : PageState) (b : browser)
  (l : list WaitlistUser) :
  persisted (store (br_world b)) = Some l ->
  validateEmail (st_email p) = false
  \/ Exists (fun v => same_email (email v) (st_email p)) l ->
  exists p' b',
    submit p b = Rendered p' b' /\
    st_inputError p' = (if validateEmail (st_email p)
                        then already_on_waitlist else invalid_email) /\
    store (br_world b') = store (br_world b) /\
    br_lastEmail b' = br_lastEmail b /\
    st_step p' = st_step p /\ st_user p' = st_user p /\
    st_justJoined p' = st_justJoined p /\ st_email p' = st_email p.
Proof.
  intros Hs Hrej. destruct b as [[s h] le]. cbn [br_world store] in *.
  unfold submit, handleSubmit.
  destruct (validateEmail (st_email p)) eqn:Hv; cbn [negb].
  - destruct Hrej as [|Hex]; [discriminate|].
    destruct (find_index_Exists _ _ Hex) as [i Hi].
    unfold submitTimeout. cbn [br_world br_lastEmail].
    rewrite (addUser_existing _ _ _ _ _ _ Hs Hi). cbn [error].
    destruct already_on_waitlist_cons as (c & t & E). rewrite E.
    do 2 eexists. split; [reflexivity|]. cbn. auto 10.
  - do 2 eexists. split; [reflexivity|]. cbn. auto 10.
Qed.

Lemma submit_rejected_witness :
  exists p' b',
    @submit latin1_case (setEmail (js "Alice@X.com") initialState)
      {| br_world := stored [alice]; br_lastEmail := None |}
    = Rendered p' b' /\
    st_inputError p' =
      (if validateEmail (st_email (setEmail (js "Alice@X.com") initialState))
       then already_on_waitlist else invalid_email) /\
    store (br_world b') = store (stored [alice]) /\
    br_lastEmail b' = None /\
    st_step p' = form /\ st_user p' = None /\
    st_justJoined p' = false /\ st_email p' = js "Alice@X.com".
Proof.
  apply (@submit_rejected latin1_case (setEmail (js "Alice@X.com") initialState)
           {| br_world := stored [alice]; br_lastEmail := None |} [alice]).
  - vm_compute. reflexivity.
  - right. constructor. vm_compute. reflexivity.
Defined.

Lemma renderRank_eq (p : PageState) (r : ref) (u : WaitlistUser)
  (s : option blob) (h l : list WaitlistUser) :
  st_user p = Some r -> h !! r = Some u -> persisted s = Some l ->
  renderRank p {| store := s; heap := h |} =
  Returns (Some (findIndex (fun v => str_eqb (email v) (email u))
                           (sort byReferrals l) + 1)%Z)
          {| store := s; heap := h ++ l |}.
Proof.
  intros Hp Hr Hs. unfold renderRank. rewrite Hp.
  erewrite bind_Returns
    by (unfold deref; cbn [heap]; rewrite Hr; reflexivity).
  erewrite bind_Returns by (apply getUserRank_eq, Hs). reflexivity.
Qed.

Lemma new_user_rank `{CaseMapping} (e : jsstring) (c : option jsstring)
  (l : list WaitlistUser) :
  find_index (has_email e) l = None ->
  (findIndex (fun v => str_eqb (email v) (email (new_user e c)))
             (sort byReferrals (l ++ [new_user e c])) + 1)%Z
  = Z.of_nat (S (length l)).
Proof.
  intros Hi. rewrite sort_snoc by reflexivity. unfold findIndex.
  rewrite find_index_first.
  - rewrite (Permutation_length (sort_perm byReferrals l)). lia.
  - apply find_index_None in Hi. rewrite (sort_perm byReferrals l).
    eapply Forall_impl; [exact Hi|]. intros v Hv.
    apply has_email_false in Hv. apply bool_decide_eq_false.
    intros E. apply Hv. unfold same_email. cbn in E. rewrite E. reflexivity.
  - apply bool_decide_eq_true. reflexivity.
Qed.

(** X13: a submission of an email that passes the check of the form, has
    its code units below 256 and is not on the waitlist opens the
    dashboard for the new record: the record is saved at the end of the
    waitlist with the referral code of the page as [referredBy], the
    email is remembered as the last email, no message is shown, and the
    rank rendered is the size of the new waitlist. *)
Theorem submit_accepted `{CaseMapping} (p : PageState) (b : browser)
  (l : list WaitlistUser) :
  persisted (store (br_world b)) = Some l ->
  validateEmail (st_email p) = true ->
  latin1 (st_email p) ->
  Forall (fun v => ~ same_email (email v) (st_email p)) l ->
  exists p' b' r w',
    submit p b = Rendered p' b' /\
    st_step p' = dashboard /\ st_user p' = Some r /\
    heap (br_world b') !! r
    = Some (new_user (st_email p) (st_referralParam p)) /\
    st_justJoined p' = true /\ st_loading p' = false /\
    st_inputError p' = [] /\
    br_lastEmail b' = Some (st_email p) /\
    persisted (store (br_world b'))
    = Some (l ++ [new_user (st_email p) (st_referralParam p)]) /\
    renderRank p' (br_world b') = Returns (Some (Z.of_nat (S (length l)))) w'.
Proof.
  intros Hs Hv He Hnew. destruct b as [[s h] le]. cbn [br_world store] in *.
  apply find_index_Forall in Hnew.
  destruct (addUser_new _ (st_referralParam p) s h l Hs Hnew He)
    as (h' & Ha & Hu).
  unfold submit, handleSubmit. rewrite Hv. cbn [negb].
  unfold submitTimeout. cbn [br_world br_lastEmail]. rewrite Ha. cbn [error].
  do 4 eexists. split; [reflexivity|]. cbn [st_step st_user st_justJoined
    st_loading st_inputError br_lastEmail br_world user store heap].
  split; [reflexivity|]. split; [reflexivity|]. split; [exact Hu|].
  split; [reflexivity|]. split; [reflexivity|]. split; [reflexivity|].
  split; [reflexivity|]. split; [apply persisted_saved|].
  erewrite renderRank_eq;
    [|reflexivity|exact Hu|apply persisted_saved].
  rewrite (new_user_rank _ _ _ Hnew). reflexivity.
Qed.

Lemma submit_accepted_witness :
  exists p' b' r w',
    @submit latin1_case (setEmail bob_email initialState)
      {| br_world := stored [alice]; br_lastEmail := None |}
    = Rendered p' b' /\
    st_step p' = dashboard /\ st_user p' = Some r /\
    heap (br_world b') !! r = Some (new_user bob_email None) /\
    st_justJoined p' = true /\ st_loading p' = false /\
    st_inputError p' = [] /\
    br_lastEmail b' = Some bob_email /\
    persisted (store (br_world b'))
    = Some ([alice] ++ [new_user bob_email None]) /\
    renderRank p' (br_world b')
    = Returns (Some (Z.of_nat (S (length [alice])))) w'.
Proof.
  apply (@submit_accepted latin1_case (setEmail bob_email initialState)
           {| br_world := stored [alice]; br_lastEmail := None |} [alice]).
  - vm_compute. reflexivity.
  - vm_compute. reflexivity.
  - unfold latin1. repeat constructor; vm_compute; discriminate.
  - constructor; [|constructor]. vm_compute. discriminate.
Defined.

(** X14: when [handleSubmit] runs on an email that passes the check of
    the form, is not on the waitlist and has a code unit above 255, the
    timeout callback ends in an exception of [btoa] that nothing catches:
    the page is left with [loading] set, on the step it was on, and the
    storage is as it was. *)
Theorem submit_uncaught `{CaseMapping} (p : PageState) (b : browser)
  (l : list WaitlistUser) :
  persisted (store (br_world b)) = Some l ->
  validateEmail (st_email p) = true ->
  ~ latin1 (st_email p) ->
  Forall (fun v => ~ same_email (email v) (st_email p)) l ->
  exists p' b',
    submit p b = Uncaught InvalidCharacterError p' b' /\
    st_loading p' = true /\ st_step p' = st_step p /\
    st_user p' = st_user p /\
    store (br_world b') = store (br_world b) /\
    br_lastEmail b' = br_lastEmail b.
Proof.
  intros Hs Hv He Hnew. destruct b as [[s h] le]. cbn [br_world store] in *.
  apply find_index_Forall in Hnew.
  unfold submit, handleSubmit. rewrite Hv. cbn [negb].
  unfold submitTimeout. cbn [br_world br_lastEmail].
  rewrite (addUser_throws _ _ _ _ _ Hs Hnew He).
  do 2 eexists. split; [reflexivity|]. cbn. auto.
Qed.

Lemma submit_uncaught_witness :
  exists p' b',
    @submit latin1_case (setEmail lukasz_email initialState)
      {| br_world := stored [alice]; br_lastEmail := None |}
    = Uncaught InvalidCharacterError p' b' /\
    st_loading p' = true /\ st_step p' = form /\ st_user p' = None /\
    store (br_world b') = store (stored [alice]) /\
    br_lastEmail b' = None.
Proof.
  apply (@submit_uncaught latin1_case (setEmail lukasz_email initialState)
           {| br_world := stored [alice]; br_lastEmail := None |} [alice]).
  - vm_compute. reflexivity.
  - vm_compute. reflexivity.
  - intros Hl. apply Forall_cons in Hl as [Hl _]. vm_compute in Hl.
    apply Hl. reflexivity.
  - constructor; [|constructor]. vm_compute. discriminate.
Defined.


Lemma openPage_eq `{CaseMapping} (search : jsstring)
  (params : list (jsstring * jsstring)) (s : option blob)
  (h l : list WaitlistUser) (le : option jsstring) :
  URLSearchParams search = Some params ->
  persisted s = Some l ->
  openPage search {| br_world := {| store := s; heap := h |};
                     br_lastEmail := le |} =
  let ref' := or_undefined (params_get (js "ref") params) in
  match le with
  | Some ((_ :: _) as lastEmail) =>
      match find_index (has_email lastEmail) l with
      | Some i =>
          Rendered {| st_step := dashboard; st_email := [];
                      st_inputError := [];
                      st_user := Some (length h + i)%nat;
                      st_loading := false; st_justJoined := false;
                      st_referralParam := ref' |}
                   {| br_world := {| store := s; heap := h ++ l |};
                      br_lastEmail := le |}
      | None =>
          Rendered {| st_step := form; st_email := []; st_inputError := [];
                      st_user := None; st_loading := false;
                      st_justJoined := false; st_referralParam := ref' |}
                   {| br_world := {| store := s; heap := h ++ l |};
                      br_lastEmail := le |}
      end
  | _ =>
      Rendered {| st_step := form; st_email := []; st_inputError := [];
                  st_user := None; st_loading := false;
                  st_justJoined := false; st_referralParam := ref' |}
               {| br_world := {| store := s; heap := h |};
                  br_lastEmail := le |}
  end.
Proof.
  intros Hq Hs. unfold openPage, mountEffect. rewrite Hq.
  cbn [br_lastEmail br_world initialState st_step st_email st_inputError
       st_user st_loading st_justJoined st_referralParam].
  destruct le as [[|c t]|]; [reflexivity| |reflexivity].
  rewrite (findUserByEmail_eq _ _ _ _ Hs).
  destruct (find_index (has_email (c :: t)) l); reflexivity.
Qed.







(** *** The link that is shared *)

Lemma split_on_none (sep : N) (s : jsstring) :
  Forall (fun c => c <> sep) s -> split_on sep s = [s].
Proof.
  induction 1 as [|c t Hc _ IH]; [reflexivity|].
  cbn. destruct (N.eqb_spec c sep); [contradiction|]. rewrite IH. reflexivity.
Qed.

Lemma plus_to_space_id (s : jsstring) : plus_to_space s = s <-> 43 ∉ s.
Proof.
  induction s as [|c t IH]; cbn.
  - split; [intros _; apply not_elem_of_nil|reflexivity].
  - rewrite not_elem_of_cons. destruct (N.eqb_spec c 43) as [->|Hc].
    + split; [discriminate|]. intros [Hne _]. contradiction.
    + split.
      * intros [= E]. split; [congruence|]. apply IH, E.
      * intros [_ Ht]. f_equal. apply IH, Ht.
Qed.

Lemma URLSearchParams_link (code : jsstring) :
  Forall code_char code ->
  URLSearchParams (js "?ref=" ++ code) = Some [(js "ref", plus_to_space code)].
Proof.
  intros Hc. unfold URLSearchParams.
  change (js "?ref=") with [63; 114; 101; 102; 61].
  replace (existsb _ _) with false.
  2:{ symmetry. apply not_true_is_false. intros Hex.
      apply existsb_exists in Hex as (c & Hin & Pc). cbn [app] in Hin.
      repeat (destruct Hin as [<-|Hin]; [discriminate Pc|]).
      rewrite Forall_forall in Hc.
      apply list_elem_of_In, Hc in Hin. unfold code_char in Hin.
      apply orb_true_iff in Pc as [Pc|Pc];
        [apply N.eqb_eq in Pc|apply N.ltb_lt in Pc]; lia. }
  cbn [app]. rewrite split_on_none.
  2:{ repeat (constructor; [discriminate|]).
      eapply Forall_impl; [exact Hc|]. unfold code_char. intros c Pc. lia. }
  reflexivity.
Qed.

(** X18: when the page is opened through the link of a record whose code
    was derived from a non-empty email, the referral code of the page is
    the code of the record with every [+] turned into a space; it is the
    code of the record exactly when that code has no [+]. *)
Theorem share_link_ref `{CaseMapping} (u : WaitlistUser) (b : browser)
  (l : list WaitlistUser) :
  persisted (store (br_world b)) = Some l ->
  as_created u ->
  email u <> [] ->
  exists p' b',
    openPage (linkSearch u) b = Rendered p' b' /\
    st_referralParam p' = Some (plus_to_space (referralCode u)) /\
    (st_referralParam p' = Some (referralCode u) <-> 43 ∉ referralCode u).
Proof.
  intros Hs [_ Hcode] He. destruct b as [[s h] le].
  cbn [br_world store] in *.
  apply generateReferralCode_Normal in Hcode as [Hl Hc].
  destruct (unpadded_shape (email u)) as [Hchars Hlen].
  rewrite <- Hc in Hchars, Hlen.
  assert (exists c t, referralCode u = c :: t) as (c & t & Ec).
  { destruct (referralCode u) as [|c t]; [|eauto].
    destruct (email u); [contradiction|cbn in Hlen; lia]. }
  pose proof (URLSearchParams_link _ Hchars) as Hq.
  assert (or_undefined (params_get (js "ref")
            [(js "ref", plus_to_space (referralCode u))])
          = Some (plus_to_space (referralCode u))) as Href.
  { unfold params_get. cbn [List.find fst].
    replace (str_eqb (js "ref") (js "ref")) with true
      by (symmetry; apply bool_decide_eq_true; reflexivity).
    cbn. rewrite Ec. reflexivity. }
  assert (exists p' b',
    openPage (linkSearch u) {| br_world := {| store := s; heap := h |};
                               br_lastEmail := le |} = Rendered p' b' /\
    st_referralParam p' = Some (plus_to_space (referralCode u)))
    as (p' & b' & Ho & Hp).
  { unfold linkSearch. rewrite (openPage_eq _ _ s h l le Hq Hs).
    cbv zeta. rewrite Href.
    destruct le as [[|c' t']|]; [eauto| |eauto].
    destruct (find_index _ l); eauto. }
  exists p', b'. split; [exact Ho|]. split; [exact Hp|].
  rewrite Hp. split.
  - intros [= E]. apply plus_to_space_id, E.
  - intros Hn. f_equal. apply plus_to_space_id, Hn.
Qed.

Lemma share_link_ref_witness :
  exists p' b',
    @openPage latin1_case (linkSearch (new_user (js "ab~@x.com") None))
      {| br_world := stored [alice]; br_lastEmail := None |}
    = Rendered p' b' /\
    st_referralParam p'
    = Some (plus_to_space (referralCode (new_user (js "ab~@x.com") None))) /\
    (st_referralParam p'
     = Some (referralCode (new_user (js "ab~@x.com") None)) <->
     43 ∉ referralCode (new_user (js "ab~@x.com") None)).
Proof.
  apply (@share_link_ref latin1_case (new_user (js "ab~@x.com") None)
           {| br_world := stored [alice]; br_lastEmail := None |} [alice]).
  - vm_compute. reflexivity.
  - split; vm_compute; reflexivity.
  - vm_compute. discriminate.
Defined.

Example code_with_plus :
  validateEmail (js "ab~@x.com") = true /\
  generateReferralCode (js "ab~@x.com") = Normal (js "YWJ+QHguY29t") /\
  plus_to_space (js "YWJ+QHguY29t") = js "YWJ QHguY29t".
Proof. repeat split; vm_compute; reflexivity. Qed.

(** X19: a visitor with no last email who opens the page through the
    link of a record on the waitlist and submits a new email that is
    accepted is saved with the code read from the link as [referredBy]
    (the code of the record with every [+] turned into a space), and the
    records that were on the waitlist, the one of the inviter among them,
    are saved as they were. *)
Theorem invited_signup `{CaseMapping} (u : WaitlistUser) (b : browser)
  (l : list WaitlistUser) (e : jsstring) :
  persisted (store (br_world b)) = Some l ->
  br_lastEmail b = None ->
  u ∈ l -> as_created u -> email u <> [] ->
  validateEmail e = true -> latin1 e ->
  Forall (fun v => ~ same_email (email v) e) l ->
  exists p1 b1 p2 b2,
    openPage (linkSearch u) b = Rendered p1 b1 /\
    submit (setEmail e p1) b1 = Rendered p2 b2 /\
    st_step p2 = dashboard /\
    persisted (store (br_world b2))
    = Some (l ++ [new_user e (Some (plus_to_space (referralCode u)))]).
Proof.
  intros Hs Hle _ [_ Hcode] He Hv Hl1 Hnew. destruct b as [[s h] le].
  cbn [br_world br_lastEmail store] in *. subst le.
  apply generateReferralCode_Normal in Hcode as [Hl Hc].
  destruct (unpadded_shape (email u)) as [Hchars Hlen].
  rewrite <- Hc in Hchars, Hlen.
  assert (exists c t, referralCode u = c :: t) as (c & t & Ec).
  { destruct (referralCode u) as [|c t]; [|eauto].
    destruct (email u); [contradiction|cbn in Hlen; lia]. }
  pose proof (URLSearchParams_link _ Hchars) as Hq.
  assert (or_undefined (params_get (js "ref")
            [(js "ref", plus_to_space (referralCode u))])
          = Some (plus_to_space (referralCode u))) as Href.
  { unfold params_get. cbn [List.find fst].
    replace (str_eqb (js "ref") (js "ref")) with true
      by (symmetry; apply bool_decide_eq_true; reflexivity).
    cbn. rewrite Ec. reflexivity. }
  apply find_index_Forall in Hnew.
  destruct (addUser_new e (Some (plus_to_space (referralCode u))) s h l
              Hs Hnew Hl1) as (h' & Ha & Hu).
  do 4 eexists. split.
  { unfold linkSearch. rewrite (openPage_eq _ _ s h l None Hq Hs).
    cbv zeta. rewrite Href. reflexivity. }
  unfold submit, handleSubmit, setEmail.
  cbn [st_email st_step st_inputError st_user st_loading st_justJoined
       st_referralParam]. rewrite Hv. cbn [negb].
  unfold submitTimeout. cbn [br_world br_lastEmail]. rewrite Ha. cbn [error].
  split; [reflexivity|]. split; [reflexivity|]. apply persisted_saved.
Qed.

Lemma invited_signup_witness :
  exists p1 b1 p2 b2,
    @openPage latin1_case (linkSearch alice)
      {| br_world := stored [alice]; br_lastEmail := None |}
    = Rendered p1 b1 /\
    @submit latin1_case (setEmail bob_email p1) b1 = Rendered p2 b2 /\
    st_step p2 = dashboard /\
    persisted (store (br_world b2))
    = Some ([alice] ++ [new_user bob_email
                          (Some (plus_to_space (referralCode alice)))]).
Proof.
  apply (@invited_signup latin1_case alice
           {| br_world := stored [alice]; br_lastEmail := None |}
           [alice] bob_email).
  - vm_compute. reflexivity.
  - reflexivity.
  - left.
  - split; vm_compute; reflexivity.
  - vm_compute. discriminate.
  - vm_compute. reflexivity.
  - unfold latin1. repeat constructor; vm_compute; discriminate.
  - constructor; [|constructor]. vm_compute. discriminate.
Defined.
